(** * Pocket Prompt: a shallow embedding of the library service, the
    storage layer, the boolean-expression parser of the HTTP server and
    the git synchroniser, with the properties of its specification. *)

From Stdlib Require Import ZArith Ascii String List Lia.
From stdpp Require Import base list gmap strings pretty sorting.
Import ListNotations.

Set Warnings "-register-all".
Local Open Scope Z_scope.

(** Go's [(value, error)] returns: an error is represented by its
    [Error()] text, since the callers only ever inspect that text. *)
Inductive result (A : Type) : Type :=
| Ok (a : A)
| Err (e : string).
Arguments Ok {A} a.
Arguments Err {A} e.

(* ------------------------------------------------------------------ *)
(** ** Go strings as byte strings *)

Module GoStrings.

(** Byte [n] as an [ascii]. *)
Definition byte (n : nat) : ascii := ascii_of_nat n.

Definition str1 (a : nat) : string := String (byte a) EmptyString.
Definition str2 (a b : nat) : string := String (byte a) (str1 b).
Definition str3 (a b c : nat) : string := String (byte a) (str2 b c).

Fixpoint sdrop (n : nat) (s : string) : string :=
  match n, s with
  | O, _ => s
  | S n', EmptyString => EmptyString
  | S n', String _ s' => sdrop n' s'
  end.

Fixpoint stake (n : nat) (s : string) : string :=
  match n, s with
  | O, _ => EmptyString
  | S n', EmptyString => EmptyString
  | S n', String c s' => String c (stake n' s')
  end.

(** [strings.HasPrefix]. *)
Definition HasPrefix (s pre : string) : bool := String.prefix pre s.

(** [strings.HasSuffix]. *)
Definition HasSuffix (s suf : string) : bool :=
  Nat.leb (String.length suf) (String.length s) &&
  String.eqb (sdrop (String.length s - String.length suf)%nat s) suf.

(** [strings.Contains]. *)
Fixpoint Contains (s sub : string) : bool :=
  String.prefix sub s ||
  match s with
  | EmptyString => false
  | String _ s' => Contains s' sub
  end.

(** [asciiSpace] of package strings: tab, newline, vertical tab, form
    feed, carriage return and space. *)
Definition asciiSpace (c : ascii) : bool :=
  let n := nat_of_ascii c in
  (Nat.eqb n 9 || Nat.eqb n 10 || Nat.eqb n 11 || Nat.eqb n 12 ||
   Nat.eqb n 13 || Nat.eqb n 32)%bool.

(** The UTF-8 encodings of the non-ASCII runes for which
    [unicode.IsSpace] holds: U+0085, U+00A0, U+1680, U+2000..U+200A,
    U+2028, U+2029, U+202F, U+205F and U+3000. *)
Definition unicodeSpaces : list string :=
  [str2 194 133; str2 194 160; str3 225 154 128] ++
  map (fun k => str3 226 128 (128 + k)) (seq 0 11) ++
  [str3 226 128 168; str3 226 128 169; str3 226 128 175;
   str3 226 129 159; str3 227 128 128].

(** Length in bytes of the white-space rune that starts [s], 0 if
    [s] does not start with one. *)
Definition leadingSpaceLen (s : string) : nat :=
  match s with
  | EmptyString => 0
  | String c _ =>
      if asciiSpace c then 1
      else match List.find (fun e => String.prefix e s) unicodeSpaces with
           | Some e => String.length e
           | None => 0
           end
  end.

(** Length in bytes of the white-space rune that ends [s]. *)
Definition trailingSpaceLen (s : string) : nat :=
  match String.get (String.length s - 1)%nat s with
  | None => 0
  | Some c =>
      if asciiSpace c then 1
      else match List.find (fun e => HasSuffix s e) unicodeSpaces with
           | Some e => String.length e
           | None => 0
           end
  end.

Fixpoint trimLeft_go (fuel : nat) (s : string) : string :=
  match fuel with
  | O => s
  | S f =>
      match leadingSpaceLen s with
      | O => s
      | k => trimLeft_go f (sdrop k s)
      end
  end.

Fixpoint trimRight_go (fuel : nat) (s : string) : string :=
  match fuel with
  | O => s
  | S f =>
      match trailingSpaceLen s with
      | O => s
      | k => trimRight_go f (stake (String.length s - k) s)
      end
  end.

(** [strings.TrimSpace]: leading white space is removed first, then
    trailing white space (each step removes at least one byte, so
    [length s] steps suffice). *)
Definition TrimSpace (s : string) : string :=
  let l := trimLeft_go (String.length s) s in
  trimRight_go (String.length l) l.

Definition cons_head (c : ascii) (parts : list string) : list string :=
  match parts with
  | [] => [String c EmptyString]
  | p :: ps => String c p :: ps
  end.

(** Left-to-right scan of [strings.Split]: [skip] counts the bytes of a
    separator occurrence still to be jumped over; the first part of the
    result is the continuation of the part being read. *)
Fixpoint split_go (sep s : string) (skip : nat) : list string :=
  match s with
  | EmptyString => [EmptyString]
  | String c s' =>
      match skip with
      | S k => split_go sep s' k
      | O =>
          if String.prefix sep s
          then EmptyString :: split_go sep s' (Nat.pred (String.length sep))
          else cons_head c (split_go sep s' O)
      end
  end.

(** [strings.Split(s, sep)] for a non-empty separator. *)
Definition Split (s sep : string) : list string := split_go sep s O.

(** [strings.ToUpper] restricted to the bytes it compares below: only
    ASCII letters are upper-cased to ASCII letters. *)
Definition upperByte (c : ascii) : ascii :=
  let n := nat_of_ascii c in
  if (Nat.leb 97 n && Nat.leb n 122)%bool then ascii_of_nat (n - 32) else c.

Fixpoint ToUpperASCII (s : string) : string :=
  match s with
  | EmptyString => EmptyString
  | String c s' => String (upperByte c) (ToUpperASCII s')
  end.

(** Go's [int] on a 64-bit platform. *)
Definition int_min : Z := - 2 ^ 63.
Definition int_max : Z := 2 ^ 63 - 1.
Definition wrap64 (z : Z) : Z := (z + 2 ^ 63) mod 2 ^ 64 - 2 ^ 63.

Definition digitVal (c : ascii) : option Z :=
  let n := nat_of_ascii c in
  if (Nat.leb 48 n && Nat.leb n 57)%bool then Some (Z.of_nat (n - 48)) else None.

Fixpoint digitsVal (s : string) (acc : Z) : option Z :=
  match s with
  | EmptyString => Some acc
  | String c s' =>
      match digitVal c with
      | Some d => digitsVal s' (acc * 10 + d)
      | None => None
      end
  end.

(** [strconv.Atoi]: an optional sign, at least one decimal digit, and
    a value in the range of [int]; [None] is the returned error. *)
Definition Atoi (s : string) : option Z :=
  let '(neg, body) :=
    match s with
    | String c r =>
        if Ascii.eqb c "-"%char then (true, r)
        else if Ascii.eqb c "+"%char then (false, r)
        else (false, s)
    | EmptyString => (false, s)
    end in
  match body with
  | EmptyString => None
  | _ =>
      match digitsVal body 0 with
      | Some n =>
          let v := if neg then - n else n in
          if (int_min <=? v) && (v <=? int_max) then Some v else None
      | None => None
      end
  end.

(** [strconv.Itoa] and the [%d] verb. *)
Definition Itoa (z : Z) : string := pretty z.

End GoStrings.
Import GoStrings.

(* ------------------------------------------------------------------ *)
(** ** Version bumping ([Service.incrementVersion]) *)

Definition incrementVersion (currentVersion : string) : result string :=
  if String.eqb currentVersion "" then Ok "1.0.0" else
  let parts := Split currentVersion "." in
  if negb (Nat.eqb (length parts) 3) then
    match Atoi currentVersion with
    | Some version => Ok (Itoa (wrap64 (version + 1)))
    | None => Ok (currentVersion +:+ ".1")
    end
  else
    match parts with
    | [p0; p1; p2] =>
        match Atoi p2 with
        | Some patch => Ok (p0 +:+ "." +:+ p1 +:+ "." +:+ Itoa (wrap64 (patch + 1)))
        | None => Ok (currentVersion +:+ ".1")
        end
    | _ => Ok (currentVersion +:+ ".1")
    end.

(** [true] when [s] contains no ['.'] byte, so that [Split] by ["."]
    leaves it whole. *)
Fixpoint noDot (s : string) : bool :=
  match s with
  | EmptyString => true
  | String c s' => negb (Ascii.eqb c "."%char) && noDot s'
  end.

(* ------------------------------------------------------------------ *)
(** ** Boolean expressions and the HTTP server's parser *)

(** Modelled from the spec: the [models.BooleanExpression] tree, whose
    declaration is not among the sources; its variants are a tag leaf,
    [AND] and [OR] over children, and [NOT] of one child, built by
    [NewTagExpression], [NewAndExpression], [NewOrExpression] and
    [NewNotExpression]. *)
Inductive BooleanExpression : Type :=
| TagExpr (tag : string)
| AndExpr (children : list BooleanExpression)
| OrExpr (children : list BooleanExpression)
| NotExpr (child : BooleanExpression).

(** The loop over the parts of an [OR] or [AND] split: each part is
    trimmed and parsed, and the first error is returned. *)
Fixpoint parseParts (parse : string -> result BooleanExpression)
    (parts : list string) : result (list BooleanExpression) :=
  match parts with
  | [] => Ok []
  | part :: rest =>
      match parse (TrimSpace part) with
      | Err e => Err e
      | Ok subExpr =>
          match parseParts parse rest with
          | Err e => Err e
          | Ok exprs => Ok (subExpr :: exprs)
          end
      end
  end.

(** [URLServer.parseBooleanExpression]. Go recursion has no fuel; every
    recursive call is on a strictly shorter string, so [fuel] greater
    than the length of the input is never exhausted (see
    [parse_fuel_ok] below). *)
Fixpoint parseBool_fuel (fuel : nat) (expr0 : string) : result BooleanExpression :=
  match fuel with
  | O => Err "expression too deeply nested"
  | S f =>
      let expr := TrimSpace expr0 in
      if HasPrefix (ToUpperASCII expr) "NOT " then
        let inner := TrimSpace (sdrop 4 expr) in
        match parseBool_fuel f inner with
        | Err e => Err e
        | Ok innerExpr => Ok (NotExpr innerExpr)
        end
      else
      let orParts := Split expr " OR " in
      if Nat.ltb 1 (length orParts) then
        match parseParts (parseBool_fuel f) orParts with
        | Err e => Err e
        | Ok exprs => Ok (OrExpr exprs)
        end
      else
      let andParts := Split expr " AND " in
      if Nat.ltb 1 (length andParts) then
        match parseParts (parseBool_fuel f) andParts with
        | Err e => Err e
        | Ok exprs => Ok (AndExpr exprs)
        end
      else
      if HasPrefix expr "(" && HasSuffix expr ")" then
        parseBool_fuel f (String.substring 1 (String.length expr - 2) expr)
      else Ok (TagExpr expr)
  end.

Definition parseBooleanExpression (expr : string) : result BooleanExpression :=
  parseBool_fuel (S (String.length expr)) expr.

(** The spec's tag literal ("any non-whitespace, non-paren token"),
    used only to judge the parser's output against the spec. *)
Definition spec_tag_literal_ok (t : string) : bool :=
  negb (String.eqb t "") &&
  forallb (fun c => negb (asciiSpace c || Ascii.eqb c "("%char || Ascii.eqb c ")"%char))
    (list_ascii_of_string t).

(* ------------------------------------------------------------------ *)
(** ** Prompts and their files ([models.Prompt], package storage) *)

(** [models.Prompt]. The fields [Variables] and [Metadata] and the
    [ContentHash] are carried unchanged by every operation below and are
    left out; times are Unix nanoseconds. *)
Record Prompt : Type := mkPrompt {
  ID : string;
  Version : string;
  Name : string;
  Summary : string;
  Tags : list string;
  TemplateRef : string;
  CreatedAt : Z;
  UpdatedAt : Z;
  Content : string;
  FilePath : string
}.

Definition set_Version (v : string) (p : Prompt) : Prompt :=
  mkPrompt p.(ID) v p.(Name) p.(Summary) p.(Tags) p.(TemplateRef)
    p.(CreatedAt) p.(UpdatedAt) p.(Content) p.(FilePath).
Definition set_Tags (t : list string) (p : Prompt) : Prompt :=
  mkPrompt p.(ID) p.(Version) p.(Name) p.(Summary) t p.(TemplateRef)
    p.(CreatedAt) p.(UpdatedAt) p.(Content) p.(FilePath).
Definition set_CreatedAt (t : Z) (p : Prompt) : Prompt :=
  mkPrompt p.(ID) p.(Version) p.(Name) p.(Summary) p.(Tags) p.(TemplateRef)
    t p.(UpdatedAt) p.(Content) p.(FilePath).
Definition set_UpdatedAt (t : Z) (p : Prompt) : Prompt :=
  mkPrompt p.(ID) p.(Version) p.(Name) p.(Summary) p.(Tags) p.(TemplateRef)
    p.(CreatedAt) t p.(Content) p.(FilePath).
Definition set_Content (c : string) (p : Prompt) : Prompt :=
  mkPrompt p.(ID) p.(Version) p.(Name) p.(Summary) p.(Tags) p.(TemplateRef)
    p.(CreatedAt) p.(UpdatedAt) c p.(FilePath).
Definition set_FilePath (f : string) (p : Prompt) : Prompt :=
  mkPrompt p.(ID) p.(Version) p.(Name) p.(Summary) p.(Tags) p.(TemplateRef)
    p.(CreatedAt) p.(UpdatedAt) p.(Content) f.

Definition set_Name (n : string) (p : Prompt) : Prompt :=
  mkPrompt p.(ID) p.(Version) n p.(Summary) p.(Tags) p.(TemplateRef)
    p.(CreatedAt) p.(UpdatedAt) p.(Content) p.(FilePath).
Definition set_Summary (d : string) (p : Prompt) : Prompt :=
  mkPrompt p.(ID) p.(Version) p.(Name) d p.(Tags) p.(TemplateRef)
    p.(CreatedAt) p.(UpdatedAt) p.(Content) p.(FilePath).
Definition set_TemplateRef (t : string) (p : Prompt) : Prompt :=
  mkPrompt p.(ID) p.(Version) p.(Name) p.(Summary) p.(Tags) t
    p.(CreatedAt) p.(UpdatedAt) p.(Content) p.(FilePath).

(** [joinTags] of package models: the tags separated by [", "]. *)
Definition joinTags (tags : list string) : string :=
  (fold_left (fun (acc : nat * string) tag =>
                let '(i, result) := acc in
                (S i, (if Nat.ltb 0 i then result +:+ ", " else result) +:+ tag))
             tags (0%nat, "")).2.

(** [Prompt.Title]. *)
Definition Title (p : Prompt) : string :=
  if negb (String.eqb p.(Name) "") then p.(Name) else p.(ID).

(** [Prompt.Description]. *)
Definition Description (p : Prompt) : string :=
  if negb (String.eqb p.(Summary) "") then p.(Summary)
  else if Nat.ltb 0 (length p.(Tags)) then "Tags: " +:+ joinTags p.(Tags)
  else "".

(** The YAML frontmatter: the fields of [Prompt] with a [yaml] key. *)
Record Frontmatter : Type := mkFrontmatter {
  fm_id : string;
  fm_version : string;
  fm_title : string;
  fm_description : string;
  fm_tags : list string;
  fm_template : string;
  fm_created_at : Z;
  fm_updated_at : Z
}.

(** A file of the library: either ["---\n"], a YAML document that
    decodes to [fm], ["---\n"] and then the text [body]; or any other
    content, which [parsePromptFile] rejects. *)
Inductive File : Type :=
| PromptFile (fm : Frontmatter) (body : string)
| OtherFile.

Record FS : Type := mkFS {
  fs_files : gmap string File;
  fs_dirs : gset string
}.

Definition frontmatterOf (p : Prompt) : Frontmatter :=
  mkFrontmatter p.(ID) p.(Version) p.(Name) p.(Summary) p.(Tags)
    p.(TemplateRef) p.(CreatedAt) p.(UpdatedAt).

(** [serializePrompt]: frontmatter, closing delimiter, then a blank line
    and the trimmed content when the content is not empty. *)
Definition serializePrompt (p : Prompt) : File :=
  PromptFile (frontmatterOf p)
    (if String.eqb p.(Content) "" then "" else str1 10 +:+ TrimSpace p.(Content)).

(** The lines a [bufio.Scanner] with [ScanLines] yields: the text split
    at ['\n'], one trailing ['\r'] dropped per line, and no empty token
    after a final newline. *)
Definition dropCR (line : string) : string :=
  if HasSuffix line (str1 13) then stake (String.length line - 1) line else line.

Definition scanLines (text : string) : list string :=
  let parts := Split text (str1 10) in
  let parts := match List.rev parts with
               | EmptyString :: rest => List.rev rest
               | _ => parts
               end in
  map dropCR parts.

(** [parsePromptFile] followed by the assignments of [LoadPrompt]. *)
Definition LoadPrompt (path : string) (f : File) : result Prompt :=
  match f with
  | PromptFile fm body =>
      Ok (mkPrompt fm.(fm_id) fm.(fm_version) fm.(fm_title) fm.(fm_description)
            fm.(fm_tags) fm.(fm_template) fm.(fm_created_at) fm.(fm_updated_at)
            (TrimSpace (String.concat (str1 10) (scanLines body))) path)
  | OtherFile => Err "failed to parse prompt: missing frontmatter delimiter"
  end.

(** [filepath.Walk] visits the entries of a directory in lexical order
    of their names, so files come in lexicographic order of their path
    components. *)
Fixpoint components_leb (a b : list string) : bool :=
  match a, b with
  | [], _ => true
  | _ :: _, [] => false
  | x :: a', y :: b' =>
      match String.compare x y with
      | Lt => true
      | Gt => false
      | Eq => components_leb a' b'
      end
  end.

Definition walk_le (a b : string * File) : Prop :=
  components_leb (Split a.1 "/") (Split b.1 "/") = true.

#[global] Instance walk_le_dec : RelDecision walk_le.
Proof. intros a b. unfold walk_le. apply _. Defined.

Definition walkPromptFiles (fs : FS) : list (string * File) :=
  merge_sort walk_le
    (filter (fun e => String.prefix "prompts/" e.1 && HasSuffix e.1 ".md")
       (map_to_list fs.(fs_files))).

Definition okToOption {A} (r : result A) : option A :=
  match r with Ok a => Some a | Err _ => None end.

(** [Storage.ListPrompts]: the walk fails when [prompts] is missing;
    when it is a regular file, the walk visits only it, and its name has
    no [.md] suffix; files that fail to load are skipped. *)
Definition Storage_ListPrompts (root : string) (fs : FS) : result (list Prompt) :=
  if decide ("prompts" ∈ fs.(fs_dirs)) then
    Ok (omap (fun e => okToOption (LoadPrompt e.1 e.2)) (walkPromptFiles fs))
  else if decide ("prompts" ∈ dom fs.(fs_files)) then Ok []
  else Err ("lstat " +:+ root +:+ "/prompts: no such file or directory").

(** The directories [os.MkdirAll(filepath.Dir(path))] creates. *)
Fixpoint dirPrefixes (acc : string) (comps : list string) : list string :=
  match comps with
  | [] | [_] => []
  | c :: rest =>
      let d := if String.eqb acc "" then c else acc +:+ "/" +:+ c in
      d :: dirPrefixes d rest
  end.

Definition parentDirs (path : string) : list string := dirPrefixes "" (Split path "/").

(** [Storage.SavePrompt]. The file is keyed by [FilePath] as written;
    Go opens [filepath.Join(root, FilePath)], which is the same file
    when [FilePath] is a clean relative path (no [.] or [..] component,
    no doubled or trailing [/]). *)
Definition Storage_SavePrompt (root : string) (fs : FS) (p : Prompt) : result FS :=
  let path := p.(FilePath) in
  let full := root +:+ "/" +:+ path in
  if existsb (fun d => bool_decide (d ∈ dom fs.(fs_files))) (parentDirs path)
  then Err ("failed to create directory: mkdir " +:+ full +:+ ": not a directory")
  else if decide (path ∈ fs.(fs_dirs))
  then Err ("failed to write prompt file: open " +:+ full +:+ ": is a directory")
  else Ok (mkFS (<[path := serializePrompt p]> fs.(fs_files))
                (list_to_set (parentDirs path) ∪ fs.(fs_dirs))).

(** [Storage.DeletePrompt]: [os.Stat], then [os.Remove], which removes
    a file, or a directory that holds nothing. *)
Definition Storage_DeletePrompt (root : string) (fs : FS) (p : Prompt) : result FS :=
  let path := p.(FilePath) in
  let full := root +:+ "/" +:+ path in
  match fs.(fs_files) !! path with
  | Some _ => Ok (mkFS (delete path fs.(fs_files)) fs.(fs_dirs))
  | None =>
      if decide (path ∈ fs.(fs_dirs)) then
        let inside := fun k => String.prefix (path +:+ "/") k in
        if existsb inside (map fst (map_to_list fs.(fs_files)))
           || existsb inside (elements fs.(fs_dirs))
        then Err ("failed to delete prompt file: remove " +:+ full +:+ ": directory not empty")
        else Ok (mkFS fs.(fs_files) (fs.(fs_dirs) ∖ {[path]}))
      else Err ("prompt file does not exist: " +:+ full)
  end.

(* ------------------------------------------------------------------ *)
(** ** The library service ([service.Service]) *)

(** Go pointers to [models.Prompt] objects: the cache holds pointers,
    [GetPrompt] returns one of them, and callers may change the object
    behind it before they pass it back (the CLI's [edit] does). *)
Abbreviation loc := positive.

Record Service : Type := mkService {
  svc_root : string;
  svc_fs : FS;
  svc_heap : gmap loc Prompt;
  svc_cache : list loc
}.

Definition set_fs (fs : FS) (s : Service) : Service :=
  mkService s.(svc_root) fs s.(svc_heap) s.(svc_cache).
Definition set_heap (h : gmap loc Prompt) (s : Service) : Service :=
  mkService s.(svc_root) s.(svc_fs) h s.(svc_cache).
Definition set_cache (c : list loc) (s : Service) : Service :=
  mkService s.(svc_root) s.(svc_fs) s.(svc_heap) c.

(** A state and error monad, and its instance on the service. *)
Definition ST (S A : Type) : Type := S -> result A * S.
Definition M (A : Type) : Type := ST Service A.

Definition ret {S A} (a : A) : ST S A := fun s => (Ok a, s).
Definition throw {S A} (e : string) : ST S A := fun s => (Err e, s).
Definition bind {S A B} (m : ST S A) (k : A -> ST S B) : ST S B :=
  fun s => match m s with
           | (Ok a, s') => k a s'
           | (Err e, s') => (Err e, s')
           end.

Notation "'let*' x ':=' m 'in' k" := (bind m (fun x => k))
  (at level 200, x name, m at level 100, k at level 200).

(** [fmt.Errorf(msg + "%w", err)]. *)
Definition wrapErr {S A} (msg : string) (m : ST S A) : ST S A :=
  fun s => match m s with
           | (Err e, s') => (Err (msg +:+ e), s')
           | r => r
           end.

(** Runs [m] and hands its outcome, error included, to the caller. *)
Definition attempt {S A} (m : ST S A) : ST S (result A) :=
  fun s => let '(r, s') := m s in (Ok r, s').

Definition deref (l : loc) : M Prompt :=
  fun s => match s.(svc_heap) !! l with
           | Some p => (Ok p, s)
           | None => (Err "invalid memory address or nil pointer dereference", s)
           end.

Definition modify (l : loc) (f : Prompt -> Prompt) : M unit :=
  fun s => match s.(svc_heap) !! l with
           | Some p => (Ok tt, set_heap (<[l := f p]> s.(svc_heap)) s)
           | None => (Err "invalid memory address or nil pointer dereference", s)
           end.

(** [&prompt] for each loaded prompt: a fresh object each. *)
Fixpoint alloc_all (h : gmap loc Prompt) (ps : list Prompt) : gmap loc Prompt * list loc :=
  match ps with
  | [] => (h, [])
  | p :: rest =>
      let l := fresh (dom h) in
      let '(h', ls) := alloc_all (<[l := p]> h) rest in
      (h', l :: ls)
  end.

Definition storageSave (p : Prompt) : M unit :=
  fun s => match Storage_SavePrompt s.(svc_root) s.(svc_fs) p with
           | Ok fs' => (Ok tt, set_fs fs' s)
           | Err e => (Err e, s)
           end.

Definition storageDelete (p : Prompt) : M unit :=
  fun s => match Storage_DeletePrompt s.(svc_root) s.(svc_fs) p with
           | Ok fs' => (Ok tt, set_fs fs' s)
           | Err e => (Err e, s)
           end.

(** [Service.loadPrompts]. *)
Definition loadPrompts : M unit :=
  fun s => match Storage_ListPrompts s.(svc_root) s.(svc_fs) with
           | Err e => (Err e, s)
           | Ok ps =>
               let '(h', ls) := alloc_all s.(svc_heap) ps in
               (Ok tt, set_cache ls (set_heap h' s))
           end.

(** The first lines of [ListPrompts] and [ListArchivedPrompts]: reload
    when the cache is empty, then read the cache. *)
Definition ensureLoaded : M (list loc) :=
  fun s => if decide (s.(svc_cache) = []) then
             bind loadPrompts (fun _ s' => (Ok s'.(svc_cache), s')) s
           else (Ok s.(svc_cache), s).

(** [Service.isArchived]. *)
Definition isArchived (p : Prompt) : bool :=
  existsb (fun t => String.eqb t "archive") p.(Tags).

Definition isArchivedAt (h : gmap loc Prompt) (l : loc) : bool :=
  match h !! l with Some p => isArchived p | None => false end.

(** [Service.ListPrompts]. *)
Definition ListPrompts : M (list loc) :=
  let* prompts := ensureLoaded in
  fun s => (Ok (filter (fun l => isArchivedAt s.(svc_heap) l = false) prompts), s).

(** [Service.ListArchivedPrompts]. *)
Definition ListArchivedPrompts : M (list loc) :=
  let* prompts := ensureLoaded in
  fun s => (Ok (filter (fun l => isArchivedAt s.(svc_heap) l = true) prompts), s).

Section Search.
(** [fuzzy.Find] of the third-party package [sahilm/fuzzy]: the
    indices of the matching strings, best match first. *)
Variable fuzzyFind : string -> list string -> list nat.

Definition searchString (p : Prompt) : string :=
  p.(Name) +:+ " " +:+ p.(Summary) +:+ " " +:+ p.(ID) +:+ " " +:+
  String.concat " " p.(Tags).

(** [Service.SearchPrompts]. *)
Definition SearchPrompts (query : string) : M (list loc) :=
  let* prompts := ListPrompts in
  if String.eqb query "" then ret prompts else
  fun s =>
    let searchStrings :=
      map (fun l => match s.(svc_heap) !! l with
                    | Some p => searchString p
                    | None => ""
                    end) prompts in
    (Ok (omap (fun i => prompts !! i) (fuzzyFind query searchStrings)), s).
End Search.

Fixpoint findByID (h : gmap loc Prompt) (id : string) (ls : list loc) : option loc :=
  match ls with
  | [] => None
  | l :: rest =>
      match h !! l with
      | Some p => if String.eqb p.(ID) id then Some l else findByID h id rest
      | None => findByID h id rest
      end
  end.

(** [Service.GetPrompt]. *)
Definition GetPrompt (id : string) : M loc :=
  let* prompts := ListPrompts in
  fun s => match findByID s.(svc_heap) id prompts with
           | Some l => (Ok l, s)
           | None => (Err ("prompt not found: " +:+ id), s)
           end.

(** [filepath.Join("prompts", id + ".md")], written without the
    [filepath.Clean] it applies: the two agree when [id] has no [/]. *)
Definition defaultPath (id : string) : string := "prompts/" +:+ id +:+ ".md".

(** [Service.CreatePrompt]. *)
Definition CreatePrompt (now : Z) (prompt : loc) : M unit :=
  let* _ := modify prompt (set_CreatedAt now) in
  let* _ := modify prompt (set_UpdatedAt now) in
  let* cur := deref prompt in
  let* _ := (if String.eqb cur.(FilePath) ""
             then modify prompt (set_FilePath (defaultPath cur.(ID)))
             else ret tt) in
  let* p := deref prompt in
  let* _ := storageSave p in
  loadPrompts.

(** [filepath.Join("prompts", id + "-v" + version + ".md")], written
    without [filepath.Clean]: the two agree when neither has a [/]. *)
Definition archivePath (p : Prompt) : string :=
  "prompts/" +:+ p.(ID) +:+ "-v" +:+ p.(Version) +:+ ".md".

(** The copy [archivePromptByTag] writes. *)
Definition archivedCopy (p : Prompt) : Prompt :=
  let tags := if existsb (fun t => String.eqb t "archive") p.(Tags)
              then p.(Tags) else p.(Tags) ++ ["archive"] in
  set_FilePath (archivePath p) (set_Tags tags p).

(** [Service.archivePromptByTag]. *)
Definition archivePromptByTag (prompt : Prompt) : M unit :=
  storageSave (archivedCopy prompt).

Definition liftResult {A} (r : result A) : M A :=
  match r with Ok a => ret a | Err e => throw e end.

(** [Service.UpdatePrompt], with the reads and writes of [prompt] and
    [existing] in the order of the source. *)
Definition UpdatePrompt (now : Z) (prompt : loc) : M unit :=
  let* incoming := deref prompt in
  let* existing := wrapErr "cannot update non-existent prompt: " (GetPrompt incoming.(ID)) in
  let* ex := deref existing in
  let* _ := wrapErr "failed to archive old version: " (archivePromptByTag ex) in
  let* newVersion := wrapErr "failed to increment version: "
                       (liftResult (incrementVersion ex.(Version))) in
  let* _ := modify prompt (set_Version newVersion) in
  let* ex1 := deref existing in
  let* _ := modify prompt (set_CreatedAt ex1.(CreatedAt)) in
  let* _ := modify prompt (set_UpdatedAt now) in
  let* cur := deref prompt in
  let* _ := (if String.eqb cur.(FilePath) ""
             then let* ex2 := deref existing in
                  modify prompt (set_FilePath ex2.(FilePath))
             else ret tt) in
  let* p := deref prompt in
  let* _ := storageSave p in
  loadPrompts.

(** [Service.DeletePrompt]. *)
Definition DeletePrompt (id : string) : M unit :=
  let* l := GetPrompt id in
  let* p := deref l in
  let* _ := wrapErr "failed to delete prompt file: " (storageDelete p) in
  loadPrompts.

(** [Service.SavePrompt]. *)
Definition SavePrompt (now : Z) (prompt : loc) : M unit :=
  let* cur := deref prompt in
  let* found := attempt (GetPrompt cur.(ID)) in
  match found with
  | Ok existing =>
      let* ex := deref existing in
      let* _ := modify prompt (set_CreatedAt ex.(CreatedAt)) in
      let* _ := modify prompt (set_UpdatedAt now) in
      UpdatePrompt now prompt
  | Err _ => CreatePrompt now prompt
  end.

(** [Service.FilterPromptsByTag]: the tag is compared with [==]. *)
Definition hasTag (tag : string) (p : Prompt) : bool :=
  existsb (fun t => String.eqb t tag) p.(Tags).

Definition hasTagAt (h : gmap loc Prompt) (tag : string) (l : loc) : bool :=
  match h !! l with Some p => hasTag tag p | None => false end.

Definition FilterPromptsByTag (tag : string) : M (list loc) :=
  let* prompts := ListPrompts in
  fun s => (Ok (filter (fun l => hasTagAt s.(svc_heap) tag l = true) prompts), s).

(** [Service.GetAllTags]: the tags are collected in a Go map, whose
    iteration order is unspecified; [elements] stands for one such
    order. *)
Definition GetAllTags : M (list string) :=
  let* prompts := ListPrompts in
  fun s =>
    let tagMap :=
      foldl (fun (m : gset string) l =>
               match s.(svc_heap) !! l with
               | Some p => foldl (fun m tag => {[tag]} ∪ m) m p.(Tags)
               | None => m
               end) ∅ prompts in
    (Ok (elements tagMap), s).

(** The flags of the CLI's [edit <id> ...] ([CLI.editPrompt]), applied
    to the prompt [GetPrompt] returned; a flag without a value is
    ignored, and a flag's value is never read as a flag. *)
Fixpoint editFlags (args : list string) (p : Prompt) : Prompt :=
  match args with
  | [] => p
  | arg :: rest =>
      let withValue (f : string -> Prompt -> Prompt) :=
        match rest with
        | v :: rest' => editFlags rest' (f v p)
        | [] => p
        end in
      if String.eqb arg "--title" then withValue set_Name
      else if String.eqb arg "--description" then withValue set_Summary
      else if String.eqb arg "--content" then withValue set_Content
      else if String.eqb arg "--template" then withValue set_TemplateRef
      else if String.eqb arg "--tags" then
        withValue (fun v p => set_Tags (map TrimSpace (Split v ",")) p)
      else if String.eqb arg "--add-tag" then
        withValue (fun v p =>
          let tag := TrimSpace v in
          if existsb (fun t => String.eqb t tag) p.(Tags) then p
          else set_Tags (p.(Tags) ++ [tag]) p)
      else if String.eqb arg "--remove-tag" then
        withValue (fun v p =>
          let tag := TrimSpace v in
          set_Tags (List.filter (fun t => negb (String.eqb t tag)) p.(Tags)) p)
      else editFlags rest p
  end.

(** The flags the loop of [CLI.editPrompt] applies, in order: one of
    its seven flags followed by a value, which the loop then skips; a
    last flag without a value, and any other argument, is passed over. *)
Definition editFlagNames : list string :=
  ["--title"; "--description"; "--content"; "--template"; "--tags"; "--add-tag"; "--remove-tag"].

Fixpoint appliedFlags (args : list string) : list string :=
  match args with
  | [] => []
  | arg :: rest =>
      if existsb (String.eqb arg) editFlagNames then
        match rest with
        | _ :: rest' => arg :: appliedFlags rest'
        | [] => []
        end
      else appliedFlags rest
  end.

(** [CLI.editPrompt] for the arguments after the id. *)
Definition cliEditPrompt (now : Z) (id : string) (flags : list string) : M unit :=
  let* l := wrapErr "failed to get prompt: " (GetPrompt id) in
  let* _ := modify l (editFlags flags) in
  wrapErr "failed to update prompt: " (UpdatePrompt now l).

(** The [limit] query parameter of [URLServer.handleList] and
    [URLServer.handleSearch]. *)
Definition applyLimit {A} (limitStr : string) (prompts : list A) : list A :=
  if String.eqb limitStr "" then prompts else
  match Atoi limitStr with
  | Some limit =>
      if (0 <? limit) && (limit <? Z.of_nat (length prompts))
      then firstn (Z.to_nat limit) prompts else prompts
  | None => prompts
  end.

(* ------------------------------------------------------------------ *)
(** ** A small library used by the examples *)

Definition fm_a : Frontmatter :=
  mkFrontmatter "a" "1.0.0" "A" "" ["x"] "" 1 1.

Definition fs_a : FS :=
  mkFS {[ "prompts/a.md" := PromptFile fm_a (str1 10 +:+ "hello") ]} {[ "prompts" ]}.

(** A prompt object built by a caller (the UI form, say). *)
Definition incoming_a (v path : string) : Prompt :=
  mkPrompt "a" v "A" "" ["x"] "" 7 7 "world" path.

Definition svc_a (v path : string) : Service :=
  mkService "/lib" fs_a {[ 1%positive := incoming_a v path ]} [].

(** The object behind [prompt] once [UpdatePrompt] has set its version,
    its times and (when empty) its path, for the incoming object [inc],
    the stored object [ex] and the bumped version [v]. *)
Definition liveCopy (now : Z) (inc ex : Prompt) (v : string) : Prompt :=
  set_FilePath (if String.eqb inc.(FilePath) "" then ex.(FilePath) else inc.(FilePath))
    (set_UpdatedAt now (set_CreatedAt ex.(CreatedAt) (set_Version v inc))).

(** The object behind [prompt] once [CreatePrompt] has set its times and
    (when empty) its path, for the incoming object [inc]. *)
Definition createdCopy (now : Z) (inc : Prompt) : Prompt :=
  set_FilePath (if String.eqb inc.(FilePath) "" then defaultPath inc.(ID) else inc.(FilePath))
    (set_UpdatedAt now (set_CreatedAt now inc)).

(** A caller's new prompt ["b"], which the library of [fs_a] does not hold. *)
Definition incoming_b : Prompt :=
  mkPrompt "b" "1.0.0" "B" "" ["y"] "" 0 0 "body" "".

Definition svc_b : Service :=
  mkService "/lib" fs_a {[ 1%positive := incoming_b ]} [].

(** The cache holds, in order, the prompts that a fresh enumeration of
    the store returns. *)
Definition cache_is_fresh (s : Service) : Prop :=
  exists vs, Storage_ListPrompts s.(svc_root) s.(svc_fs) = Ok vs /\
             mapM (fun l => s.(svc_heap) !! l) s.(svc_cache) = Some vs.

(** The object at [l] carries the tag ["archive"]. *)
Definition archivedAt (h : gmap loc Prompt) (l : loc) : Prop :=
  exists p, h !! l = Some p /\ In "archive" p.(Tags).

(** A library in which the only copy of ["a"] is an archived one. *)
Definition fs_archived_a : FS :=
  mkFS {[ "prompts/a-v1.0.0.md" :=
            PromptFile (mkFrontmatter "a" "1.0.0" "A" "" ["x"; "archive"] "" 1 1)
                       (str1 10 +:+ "hello") ]} {[ "prompts" ]}.

(* ------------------------------------------------------------------ *)
(** ** Git synchronisation ([git.GitSync]) *)

(** How a [git] process ends: with an exit code and its output, or
    killed when the 10 second context of [runGitCommandWithTimeout]
    expires. *)
Inductive outcome : Type :=
| Exit (code : Z) (output : string)
| TimedOut.

(** The commands run so far, each with its outcome, oldest first. *)
Abbreviation GitLog := (list (list string * outcome)).

Record GitSync : Type := mkGitSync {
  baseDir : string;
  enabled : bool;
  gitDirExists : bool   (* [os.Stat(baseDir/.git)] succeeds *)
}.

(** [GitSync.IsEnabled]. *)
Definition IsEnabled (g : GitSync) : bool := g.(enabled) && g.(gitDirExists).

Definition succeeded (o : outcome) : bool :=
  match o with Exit c _ => Z.eqb c 0 | TimedOut => false end.

(** The [error] of [exec.Cmd.Run] and [exec.Cmd.Output]. *)
Definition exitErrorText (o : outcome) : string :=
  match o with Exit c _ => "exit status " +:+ Itoa c | TimedOut => "signal: killed" end.

(** What [runGitCommandWithTimeout] returns for a command that ended
    with [o]. *)
Definition gitResult (args : list string) (o : outcome) : result unit :=
  match o with
  | Exit c out =>
      if Z.eqb c 0 then Ok tt
      else Err ("git " +:+ String.concat " " args +:+ " failed: " +:+ out)
  | TimedOut => Err ("git " +:+ String.concat " " args +:+ " timed out after 10s")
  end.

Definition branchArgs : list string := ["branch"; "--show-current"].
Definition mergeArgs (b : string) : list string :=
  ["pull"; "--strategy=recursive"; "--strategy-option=ours"; "origin"; b].
Definition rebaseArgs (b : string) : list string := ["pull"; "--rebase"; "origin"; b].
Definition pushArgs (b : string) : list string := ["push"; "origin"; b].

Section Git.
(** The repository, the remote and the clock behind the [git] binary:
    the outcome of a command, given the commands run before it. *)
Variable git : GitLog -> list string -> outcome.
Variable g : GitSync.

(** One [git] process, run in [g.baseDir]. *)
Definition exec_git (args : list string) : ST GitLog outcome :=
  fun log => let o := git log args in (Ok o, log ++ [(args, o)]).

(** [GitSync.runGitCommand]. *)
Definition runGitCommand (args : list string) : ST GitLog unit :=
  let* o := exec_git args in
  match gitResult args o with Ok _ => ret tt | Err e => throw e end.

(** [GitSync.getCurrentBranch]. *)
Definition getCurrentBranch : ST GitLog string :=
  let* o := exec_git branchArgs in
  ret (match o with
       | Exit c out =>
           if Z.eqb c 0 then
             let branch := TrimSpace out in
             if String.eqb branch "" then "main" else branch
           else "main"
       | TimedOut => "main"
       end).

(** [GitSync.isBehindRemote]. *)
Definition isBehindRemote : ST GitLog bool :=
  let* branch := getCurrentBranch in
  let* ro := exec_git ["rev-parse"; "origin/" +:+ branch] in
  if negb (succeeded ro) then ret false else
  let remoteHash := match ro with Exit _ out => TrimSpace out | TimedOut => "" end in
  let* lo := exec_git ["rev-parse"; "HEAD"] in
  if negb (succeeded lo) then throw (exitErrorText lo) else
  let localHash := match lo with Exit _ out => TrimSpace out | TimedOut => "" end in
  if negb (String.eqb remoteHash localHash) then
    let* mo := exec_git ["merge-base"; "--is-ancestor"; localHash; remoteHash] in
    ret (succeeded mo)
  else ret false.

(** [GitSync.hasChangesToCommit]. *)
Definition hasChangesToCommit : ST GitLog bool :=
  let* o := exec_git ["diff"; "--cached"; "--quiet"] in
  match o with
  | Exit c _ =>
      if Z.eqb c 0 then ret false
      else if Z.eqb c 1 then ret true
      else throw (exitErrorText o)
  | TimedOut => throw (exitErrorText o)
  end.

(** [GitSync.resetToRemote]. *)
Definition resetToRemote : ST GitLog unit :=
  let* branch := getCurrentBranch in
  let* _ := wrapErr "failed to fetch before reset: " (runGitCommand ["fetch"; "origin"]) in
  wrapErr "failed to reset to remote: " (runGitCommand ["reset"; "--hard"; "origin/" +:+ branch]).

(** The loop of [resolveConflictsAutomatically] over the files. *)
Fixpoint resolveFiles (files : list string) : ST GitLog unit :=
  match files with
  | [] => ret tt
  | file :: rest =>
      let* _ := (if String.eqb file "" then ret tt else
                 let* _ := wrapErr ("failed to resolve conflict in " +:+ file +:+ ": ")
                             (runGitCommand ["checkout"; "--theirs"; file]) in
                 wrapErr ("failed to stage resolved file " +:+ file +:+ ": ")
                   (runGitCommand ["add"; file])) in
      resolveFiles rest
  end.

(** [GitSync.resolveConflictsAutomatically]. *)
Definition resolveConflictsAutomatically : ST GitLog unit :=
  let* o := exec_git ["diff"; "--name-only"; "--diff-filter=U"] in
  if negb (succeeded o) then throw ("failed to get conflicted files: " +:+ exitErrorText o) else
  let output := match o with Exit _ out => out | TimedOut => "" end in
  let conflictedFiles := Split (TrimSpace output) (str1 10) in
  match conflictedFiles with
  | [] | EmptyString :: _ => throw "no conflicted files found"
  | _ =>
      let* _ := resolveFiles conflictedFiles in
      wrapErr "failed to complete merge: " (runGitCommand ["commit"; "--no-edit"])
  end.

(** [GitSync.handlePullConflict]. *)
Definition handlePullConflict (errStr : string) : ST GitLog unit :=
  if Contains errStr "divergent" || Contains errStr "hint: You have divergent branches" then
    let* b1 := getCurrentBranch in
    let* merged := attempt (runGitCommand (mergeArgs b1)) in
    match merged with
    | Ok _ => ret tt
    | Err _ =>
        let* b2 := getCurrentBranch in
        let* rebased := attempt (runGitCommand (rebaseArgs b2)) in
        match rebased with
        | Ok _ => ret tt
        | Err _ => resetToRemote
        end
    end
  else if Contains errStr "conflict" || Contains errStr "CONFLICT" then
    resolveConflictsAutomatically
  else throw errStr.

(** [GitSync.PullChanges]. *)
Definition PullChanges : ST GitLog unit :=
  if negb (IsEnabled g) then ret tt else
  let* _ := wrapErr "failed to fetch from remote: " (runGitCommand ["fetch"; "origin"]) in
  let* behind := wrapErr "failed to check remote status: " isBehindRemote in
  if negb behind then ret tt else
  let* branch := getCurrentBranch in
  let* pulled := attempt (runGitCommand ["pull"; "origin"; branch]) in
  match pulled with
  | Ok _ => ret tt
  | Err e => handlePullConflict e
  end.

(** [GitSync.pushWithRetry]. *)
Definition pushWithRetry : ST GitLog unit :=
  let* b1 := getCurrentBranch in
  let* pushed := attempt (runGitCommand (pushArgs b1)) in
  match pushed with
  | Ok _ => ret tt
  | Err e =>
      if Contains e "rejected" || Contains e "non-fast-forward" then
        let* pulled := attempt PullChanges in
        match pulled with
        | Err pe => throw ("push failed and pull failed: push=" +:+ e +:+ ", pull=" +:+ pe)
        | Ok _ =>
            let* b2 := getCurrentBranch in
            let* retried := attempt (runGitCommand (pushArgs b2)) in
            match retried with
            | Ok _ => ret tt
            | Err re => throw ("push failed after pull: original=" +:+ e +:+ ", retry=" +:+ re)
            end
        end
      else throw e
  end.

(** [GitSync.SyncChanges]; [now] is the time as [time.Now().Format]
    prints it. A failed pull is only printed as a warning. *)
Definition SyncChanges (message now : string) : ST GitLog unit :=
  if negb (IsEnabled g) then ret tt else
  let* _ := attempt PullChanges in
  let* _ := wrapErr "failed to stage changes: " (runGitCommand ["add"; "-A"]) in
  let* hasChanges := wrapErr "failed to check for changes: " hasChangesToCommit in
  if negb hasChanges then ret tt else
  let* _ := wrapErr "failed to commit changes: "
              (runGitCommand ["commit"; "-m"; message +:+ " - " +:+ now]) in
  wrapErr "committed locally but failed to push: " pushWithRetry.
End Git.

Definition set_enabled (b : bool) (g : GitSync) : GitSync :=
  mkGitSync g.(baseDir) b g.(gitDirExists).

Definition remoteArgs : list string := ["remote"; "-v"].
Definition statusArgs : list string := ["status"; "--porcelain"; "--branch"].

(** The events the [select] of [BackgroundSync] receives, in order. *)
Inductive event : Type := Tick | Cancel.

Section GitMore.
Variable git : GitLog -> list string -> outcome.
Variable g : GitSync.

(** [GitSync.hasRemote]. *)
Definition hasRemote : ST GitLog bool :=
  let* o := exec_git git remoteArgs in
  ret (match o with
       | Exit c out => Z.eqb c 0 && negb (String.eqb (TrimSpace out) "")
       | TimedOut => false
       end).

(** [GitSync.Initialize]: it returns [nil]; the result here is [g] with
    its new [enabled] field. *)
Definition Initialize : ST GitLog GitSync :=
  if negb g.(gitDirExists) then ret (set_enabled false g) else
  let* remote := hasRemote in
  if negb remote then ret (set_enabled false g) else ret (set_enabled true g).

(** [GitSync.GetStatus]: the status text and the error returned with it. *)
Definition GetStatus : ST GitLog (string * option string) :=
  if negb g.(gitDirExists) then ret ("Git not initialized", None) else
  let* remote := hasRemote in
  if negb remote then ret ("No remote configured", None) else
  if negb g.(enabled) then ret ("Git sync disabled", None) else
  let* o := exec_git git statusArgs in
  match o with
  | TimedOut => ret ("Git status timeout", None)
  | Exit c out =>
      if negb (Z.eqb c 0) then ret ("Git status unknown", Some (exitErrorText o)) else
      match Split out (str1 10) with
      | branchLine :: rest =>
          if Contains branchLine "[ahead" then ret ("Changes need to be pushed", None)
          else if Contains branchLine "[behind" then ret ("Remote has new changes", None)
          else match rest with
               | line1 :: _ =>
                   if negb (String.eqb line1 "") then ret ("Uncommitted changes", None)
                   else ret ("In sync", None)
               | [] => ret ("In sync", None)
               end
      | [] => ret ("In sync", None)
      end
  end.

(** The loop of [GitSync.BackgroundSync]: each tick runs [PullChanges]
    and only prints its error; the loop ends on cancellation. *)
Fixpoint backgroundLoop (evs : list event) : ST GitLog unit :=
  match evs with
  | [] => ret tt
  | Cancel :: _ => ret tt
  | Tick :: rest =>
      let* _ := attempt (PullChanges git g) in
      backgroundLoop rest
  end.

(** [GitSync.BackgroundSync] over the events [evs]. *)
Definition BackgroundSync (evs : list event) : ST GitLog unit :=
  if negb (IsEnabled g) then ret tt else backgroundLoop evs.
End GitMore.

(** The command starts with [reset]: only [resetToRemote] runs one. *)
Definition isResetArgs (args : list string) : bool :=
  match args with a :: _ => String.eqb a "reset" | [] => false end.

Definition isPushArgs (args : list string) : bool :=
  match args with a :: _ => String.eqb a "push" | [] => false end.

Definition isRebaseArgs (args : list string) : bool :=
  match args with a :: b :: _ => String.eqb a "pull" && String.eqb b "--rebase" | _ => false end.

(** Every entry of the log that [P] selects comes right after a log
    satisfying [ctx]. *)
Definition guarded (P : list string -> bool) (ctx : GitLog -> Prop) (log : GitLog) : Prop :=
  forall pre x post, log = pre ++ x :: post -> P x.1 = true -> ctx pre.

(** The log ends with a failed merge pull, a branch query, a failed
    rebase pull, a branch query and a fetch. *)
Definition reset_ctx (pre : GitLog) : Prop :=
  exists pre' b1 om ob2 b2 orb ob3 ofe,
    pre = pre' ++ [(mergeArgs b1, om); (branchArgs, ob2); (rebaseArgs b2, orb);
                   (branchArgs, ob3); (["fetch"; "origin"], ofe)] /\
    succeeded om = false /\ succeeded orb = false.

(** The log ends with a failed merge pull and a branch query. *)
Definition rebase_ctx (pre : GitLog) : Prop :=
  exists pre' b1 om ob2,
    pre = pre' ++ [(mergeArgs b1, om); (branchArgs, ob2)] /\ succeeded om = false.

(** Every [reset] comes right after a failed merge and a failed rebase;
    every rebase pull comes right after a failed merge. *)
Definition reset_guarded (log : GitLog) : Prop := guarded isResetArgs reset_ctx log.
Definition rebase_guarded (log : GitLog) : Prop := guarded isRebaseArgs rebase_ctx log.

Definition pushCount (log : GitLog) : nat :=
  length (List.filter (fun e => isPushArgs e.1) log).

Definition isFetchArgs (args : list string) : bool :=
  match args with a :: _ => String.eqb a "fetch" | [] => false end.

Definition fetchCount (log : GitLog) : nat :=
  length (List.filter (fun e => isFetchArgs e.1) log).

(** The ticks [BackgroundSync] receives before it is cancelled. *)
Fixpoint ticksBeforeCancel (evs : list event) : nat :=
  match evs with
  | Tick :: rest => S (ticksBeforeCancel rest)
  | _ => 0
  end.

(** What [pushWithRetry] leaves behind, read off the log it appends
    ([rest] follows the first branch query and push): a push that
    succeeds or fails without a rejection ends the call; a rejected push
    runs [PullChanges], which pushes nothing; a failed pull ends the
    call, a successful one is followed by one branch query and one push,
    and nothing after it. *)
Definition push_retry_outcome (git : GitLog -> list string -> outcome) (g : GitSync)
  (log : GitLog) (r : result unit) (log' : GitLog) : Prop :=
  exists b1 ob1 o1 rest,
    let log1 := log ++ [(branchArgs, ob1); (pushArgs b1, o1)] in
    log' = log1 ++ rest /\
    match gitResult (pushArgs b1) o1 with
    | Ok _ => rest = [] /\ r = Ok tt
    | Err e1 =>
        if Contains e1 "rejected" || Contains e1 "non-fast-forward" then
          exists pr prest,
            PullChanges git g log1 = (pr, log1 ++ prest) /\ pushCount prest = 0%nat /\
            match pr with
            | Err pe =>
                rest = prest /\
                r = Err ("push failed and pull failed: push=" +:+ e1 +:+ ", pull=" +:+ pe)
            | Ok _ =>
                exists b2 ob2 o2,
                  rest = prest ++ [(branchArgs, ob2); (pushArgs b2, o2)] /\
                  r = match gitResult (pushArgs b2) o2 with
                      | Ok _ => Ok tt
                      | Err e2 =>
                          Err ("push failed after pull: original=" +:+ e1 +:+ ", retry=" +:+ e2)
                      end
            end
        else rest = [] /\ r = Err e1
    end.

(** A remote that has moved on: every push is rejected, and fetching
    fails, so [PullChanges] fails too. *)
Definition git_rejecting (log : GitLog) (args : list string) : outcome :=
  match args with
  | a :: _ =>
      if String.eqb a "push" then
        Exit 1 "! [rejected]        main -> main (non-fast-forward)"
      else if String.eqb a "fetch" then Exit 128 "fatal: unable to access remote"
      else if String.eqb a "branch" then Exit 0 "main"
      else if String.eqb a "diff" then Exit 1 ""
      else Exit 0 ""
  | [] => Exit 0 ""
  end.

(** A remote with divergent history: the plain pull reports divergent
    branches, both reconciling pulls fail, fetch and reset succeed. *)
Definition git_divergent (log : GitLog) (args : list string) : outcome :=
  match args with
  | "pull" :: "origin" :: _ => Exit 128 "hint: You have divergent branches"
  | "pull" :: _ => Exit 1 "CONFLICT (content)"
  | "rev-parse" :: "HEAD" :: _ => Exit 0 "aaa"
  | "rev-parse" :: _ => Exit 0 "bbb"
  | "branch" :: _ => Exit 0 "main"
  | _ => Exit 0 ""
  end.

(** A merge that leaves two prompt files in conflict. *)
Definition git_conflicted (log : GitLog) (args : list string) : outcome :=
  match args with
  | "diff" :: "--name-only" :: _ => Exit 0 ("prompts/a.md" +:+ str1 10 +:+ "prompts/b.md" +:+ str1 10)
  | _ => Exit 0 ""
  end.

(** A remote that rejects the first push only; local and remote heads
    agree, so [PullChanges] fetches and stops. *)
Definition git_retry (log : GitLog) (args : list string) : outcome :=
  match args with
  | a :: _ =>
      if String.eqb a "push" then
        if Nat.eqb (pushCount log) 0
        then Exit 1 "! [rejected]        main -> main (non-fast-forward)"
        else Exit 0 ""
      else if String.eqb a "branch" then Exit 0 "main"
      else if String.eqb a "rev-parse" then Exit 0 "aaa"
      else if String.eqb a "diff" then Exit 1 ""
      else Exit 0 ""
  | [] => Exit 0 ""
  end.

Definition g_on : GitSync := mkGitSync "/lib" true true.

(* ================================================================== *)
(** * Properties *)

Example incrementVersion_semver : incrementVersion "1.2.3" = Ok "1.2.4".
Proof. vm_compute. reflexivity. Qed.
Example incrementVersion_int : incrementVersion "5" = Ok "6".
Proof. vm_compute. reflexivity. Qed.
Example incrementVersion_other : incrementVersion "v1" = Ok "v1.1".
Proof. vm_compute. reflexivity. Qed.
Example incrementVersion_bad_patch : incrementVersion "1.2.x" = Ok "1.2.x.1".
Proof. vm_compute. reflexivity. Qed.
Example incrementVersion_two : incrementVersion "1.2" = Ok "1.2.1".
Proof. vm_compute. reflexivity. Qed.
Example trim_ex : TrimSpace ("  a b " +:+ str1 10 +:+ str3 226 128 168) = "a b".
Proof. vm_compute. reflexivity. Qed.

Example parse_ex1 : parseBooleanExpression "a AND (b OR NOT c)" =
  Ok (OrExpr [AndExpr [TagExpr "a"; TagExpr "(b"]; NotExpr (TagExpr "c)")]).
Proof. vm_compute. reflexivity. Qed.
Example parse_ex2 : parseBooleanExpression "a OR b AND c" =
  Ok (OrExpr [TagExpr "a"; AndExpr [TagExpr "b"; TagExpr "c"]]).
Proof. vm_compute. reflexivity. Qed.

(* ------------------------------------------------------------------ *)
(** ** Splitting on a one-byte separator *)

Lemma prefix_dot (c : ascii) (x : string) :
  String.prefix "." (String c x) = Ascii.eqb c "."%char.
Proof.
  change (String.prefix "." (String c x))
    with (if ascii_dec "."%char c then String.prefix "" x else false).
  destruct (ascii_dec "."%char c) as [E|Hne].
  - subst c. destruct x; reflexivity.
  - symmetry. apply Ascii.eqb_neq. congruence.
Qed.

Lemma split_dot_nodot (x : string) :
  noDot x = true -> split_go "." x 0 = [x].
Proof.
  induction x as [|c x IH]; intros H; [reflexivity|].
  simpl in H. apply andb_prop in H as [H1 H2].
  cbn [split_go]. rewrite prefix_dot.
  destruct (Ascii.eqb c "."%char); [discriminate|].
  rewrite (IH H2). reflexivity.
Qed.

Lemma split_dot_app (x r : string) :
  noDot x = true -> split_go "." (x +:+ "." +:+ r) 0 = x :: split_go "." r 0.
Proof.
  induction x as [|c x IH]; intros H.
  { change ("" +:+ "." +:+ r) with (String "."%char r).
    cbn [split_go]. rewrite prefix_dot. reflexivity. }
  simpl in H. apply andb_prop in H as [H1 H2].
  change (String c x +:+ "." +:+ r) with (String c (x +:+ "." +:+ r)).
  cbn [split_go]. rewrite prefix_dot.
  destruct (Ascii.eqb c "."%char); [discriminate|].
  rewrite (IH H2). reflexivity.
Qed.

Lemma Split_three (x y z : string) :
  noDot x = true -> noDot y = true -> noDot z = true ->
  Split (x +:+ "." +:+ y +:+ "." +:+ z) "." = [x; y; z].
Proof.
  intros Hx Hy Hz. unfold Split.
  rewrite (split_dot_app x _ Hx), (split_dot_app y _ Hy), (split_dot_nodot z Hz).
  reflexivity.
Qed.

(* ------------------------------------------------------------------ *)
(** ** Lengths of trimmed, split and sliced strings *)

Section Lengths.
Local Open Scope nat_scope.

Lemma length_sdrop (n : nat) (s : string) :
  String.length (sdrop n s) = String.length s - n.
Proof.
  revert n. induction s as [|c s IH]; intros [|n]; simpl; auto.
Qed.

Lemma length_stake (n : nat) (s : string) :
  String.length (stake n s) <= String.length s.
Proof.
  revert n. induction s as [|c s IH]; intros [|n]; simpl; try lia.
  specialize (IH n). lia.
Qed.

Lemma length_substring (n m : nat) (s : string) :
  String.length (String.substring n m s) <= m.
Proof.
  revert n m. induction s as [|c s IH]; intros [|n] [|m]; simpl; try lia.
  - specialize (IH 0 m). lia.
  - apply (IH n 0).
  - apply (IH n (S m)).
Qed.

Lemma trimLeft_go_length (f : nat) (s : string) :
  String.length (trimLeft_go f s) <= String.length s.
Proof.
  revert s. induction f as [|f IH]; intros s; cbn [trimLeft_go trimRight_go]; [lia|].
  destruct (leadingSpaceLen s) as [|k]; [lia|].
  etransitivity; [apply IH|]. rewrite length_sdrop. lia.
Qed.

Lemma trimRight_go_length (f : nat) (s : string) :
  String.length (trimRight_go f s) <= String.length s.
Proof.
  revert s. induction f as [|f IH]; intros s; cbn [trimLeft_go trimRight_go]; [lia|].
  destruct (trailingSpaceLen s) as [|k]; [lia|].
  etransitivity; [apply IH|]. apply length_stake.
Qed.

Lemma TrimSpace_length (s : string) :
  String.length (TrimSpace s) <= String.length s.
Proof.
  unfold TrimSpace. etransitivity; [apply trimRight_go_length|].
  apply trimLeft_go_length.
Qed.

Lemma prefix_length (a b : string) :
  String.prefix a b = true -> String.length a <= String.length b.
Proof.
  revert a. induction b as [|c b IH]; intros [|d a]; simpl; try lia; try discriminate.
  destruct (ascii_dec d c); [|discriminate]. intros H. specialize (IH a H). lia.
Qed.

Lemma length_ToUpperASCII (s : string) :
  String.length (ToUpperASCII s) = String.length s.
Proof. induction s; simpl; auto. Qed.

Lemma split_go_not_nil (sep s : string) (k : nat) : split_go sep s k <> [].
Proof.
  revert k. induction s as [|c s IH]; intros [|k]; cbn [split_go]; try discriminate.
  - destruct (String.prefix sep (String c s)); [discriminate|].
    unfold cons_head. destruct (split_go sep s 0); discriminate.
  - apply IH.
Qed.

(** The parts of a split, the separators between them and the bytes
    still to be skipped add up to the whole string. *)
Lemma split_go_length (sep s : string) (k : nat) :
  0 < String.length sep ->
  list_sum (map String.length (split_go sep s k))
  + String.length sep * (length (split_go sep s k) - 1)
  + Nat.min k (String.length s) = String.length s.
Proof.
  intros Hsep. revert k. induction s as [|c s IH]; intros [|k].
  - simpl. lia.
  - simpl. lia.
  - cbn [split_go]. destruct (String.prefix sep (String c s)) eqn:Hp.
    + pose proof (prefix_length _ _ Hp) as Hl. simpl in Hl.
      specialize (IH (Nat.pred (String.length sep))).
      pose proof (split_go_not_nil sep s (Nat.pred (String.length sep))) as Hne.
      destruct (split_go sep s (Nat.pred (String.length sep))) as [|p ps];
        [contradiction|].
      unfold list_sum in *. cbn [fold_right map length String.length] in *.
      replace (S (S (length ps)) - 1) with (S (length ps)) by lia.
      replace (S (length ps) - 1) with (length ps) in IH by lia.
      rewrite Nat.mul_succ_r. lia.
    + specialize (IH 0).
      pose proof (split_go_not_nil sep s 0) as Hne.
      destruct (split_go sep s 0) as [|p ps]; [contradiction|].
      unfold list_sum in *. cbn [cons_head fold_right map length String.length] in *.
      lia.
  - cbn [split_go String.length]. specialize (IH k). lia.
Qed.

Lemma In_length_le_sum (p : string) (l : list string) :
  In p l -> String.length p <= list_sum (map String.length l).
Proof.
  induction l as [|q l IH]; simpl; [contradiction|].
  intros [<-|H]; [lia|]. specialize (IH H). lia.
Qed.

Lemma Split_parts_shorter (s sep p : string) :
  0 < String.length sep -> 1 < length (Split s sep) -> In p (Split s sep) ->
  String.length p < String.length s.
Proof.
  intros Hsep Hn Hin. unfold Split in *.
  pose proof (split_go_length sep s 0 Hsep) as E.
  pose proof (In_length_le_sum _ _ Hin) as Hp.
  simpl in E. nia.
Qed.

End Lengths.

(* ------------------------------------------------------------------ *)
(** ** The boolean-expression parser never fails *)

Lemma parseParts_ok (parse : string -> result BooleanExpression) (parts : list string) :
  (forall p, In p parts -> exists e, parse (TrimSpace p) = Ok e) ->
  exists es, parseParts parse parts = Ok es.
Proof.
  induction parts as [|p ps IH]; intros H; simpl; [eauto|].
  destruct (H p (or_introl eq_refl)) as [e ->].
  destruct IH as [es ->]; [intros q Hq; apply H; right; exact Hq|]. eauto.
Qed.

Lemma parse_fuel_ok (fuel : nat) (s : string) :
  (String.length s < fuel)%nat -> exists e, parseBool_fuel fuel s = Ok e.
Proof.
  revert s. induction fuel as [|fuel IH]; intros s Hs; [lia|].
  cbn [parseBool_fuel].
  pose proof (TrimSpace_length s) as Hexpr.
  set (expr := TrimSpace s) in *.
  destruct (HasPrefix (ToUpperASCII expr) "NOT ") eqn:Hnot.
  { unfold HasPrefix in Hnot. apply prefix_length in Hnot.
    rewrite length_ToUpperASCII in Hnot. simpl in Hnot.
    destruct (IH (TrimSpace (sdrop 4 expr))) as [e ->]; [|eauto].
    pose proof (TrimSpace_length (sdrop 4 expr)). rewrite length_sdrop in *. lia. }
  destruct (Nat.ltb 1 (length (Split expr " OR "))) eqn:Hor.
  { apply Nat.ltb_lt in Hor.
    destruct (parseParts_ok (parseBool_fuel fuel) (Split expr " OR ")) as [es ->]; [|eauto].
    intros p Hp. apply IH.
    pose proof (Split_parts_shorter expr " OR " p ltac:(simpl; lia) Hor Hp).
    pose proof (TrimSpace_length p). lia. }
  destruct (Nat.ltb 1 (length (Split expr " AND "))) eqn:Hand.
  { apply Nat.ltb_lt in Hand.
    destruct (parseParts_ok (parseBool_fuel fuel) (Split expr " AND ")) as [es ->]; [|eauto].
    intros p Hp. apply IH.
    pose proof (Split_parts_shorter expr " AND " p ltac:(simpl; lia) Hand Hp).
    pose proof (TrimSpace_length p). lia. }
  destruct (HasPrefix expr "(" && HasSuffix expr ")") eqn:Hpar; [|eauto].
  apply andb_prop in Hpar as [Hpre _]. unfold HasPrefix in Hpre.
  apply prefix_length in Hpre. simpl in Hpre.
  apply IH. pose proof (length_substring 1 (String.length expr - 2) expr). lia.
Qed.

(* ------------------------------------------------------------------ *)
(** ** Claims on version bumping and on the expression parser *)

(** C2 (amended). [incrementVersion] never fails. The empty version
    becomes ["1.0.0"]. A three-part version [x.y.z] whose third part
    parses as an [int] gets that part incremented (with Go's 64-bit
    wrap-around), and gets [".1"] appended when it does not parse. A
    version that is not three-part becomes [n+1] when the whole string
    parses as an [int] [n], and gets [".1"] appended otherwise. *)
Theorem incrementVersion_behaviour :
  (forall v, exists r, incrementVersion v = Ok r) /\
  incrementVersion "" = Ok "1.0.0" /\
  (forall x y z, noDot x = true -> noDot y = true -> noDot z = true ->
     incrementVersion (x +:+ "." +:+ y +:+ "." +:+ z) =
       match Atoi z with
       | Some n => Ok (x +:+ "." +:+ y +:+ "." +:+ Itoa (wrap64 (n + 1)))
       | None => Ok ((x +:+ "." +:+ y +:+ "." +:+ z) +:+ ".1")
       end) /\
  (forall v, v <> "" -> length (Split v ".") <> 3%nat ->
     incrementVersion v =
       match Atoi v with
       | Some n => Ok (Itoa (wrap64 (n + 1)))
       | None => Ok (v +:+ ".1")
       end).
Proof.
  split; [|split; [|split]].
  - intros v. unfold incrementVersion.
    destruct (String.eqb v ""); [eauto|].
    destruct (negb _); [destruct (Atoi v); eauto|].
    destruct (Split v ".") as [|p0 [|p1 [|p2 [|p3 ps]]]]; eauto.
    destruct (Atoi p2); eauto.
  - reflexivity.
  - intros x y z Hx Hy Hz. unfold incrementVersion.
    replace (String.eqb (x +:+ "." +:+ y +:+ "." +:+ z) "") with false
      by (destruct x; reflexivity).
    rewrite (Split_three x y z Hx Hy Hz). cbn [length Nat.eqb negb].
    destruct (Atoi z); reflexivity.
  - intros v Hv Hn. unfold incrementVersion.
    replace (String.eqb v "") with false
      by (symmetry; apply String.eqb_neq; exact Hv).
    apply Nat.eqb_neq in Hn. rewrite Hn. reflexivity.
Qed.

Lemma incrementVersion_behaviour_witness :
  noDot "1" = true /\ noDot "2" = true /\ noDot "3" = true /\
  incrementVersion ("1" +:+ "." +:+ "2" +:+ "." +:+ "3") = Ok "1.2.4" /\
  "7" <> "" /\ length (Split "7" ".") <> 3%nat /\ incrementVersion "7" = Ok "8".
Proof.
  destruct incrementVersion_behaviour as (_ & _ & H3 & H4).
  split; [reflexivity|]. split; [reflexivity|]. split; [reflexivity|].
  split; [rewrite (H3 "1" "2" "3"); reflexivity|].
  split; [discriminate|]. split; [vm_compute; discriminate|].
  rewrite (H4 "7"); [reflexivity|discriminate|vm_compute; discriminate].
Defined.

(** C2, as stated, fails: ["5"] is not a three-part version, yet it is
    bumped to ["6"] rather than to ["5.1"]. *)
Lemma incrementVersion_integer_not_dot1 :
  length (Split "5" ".") <> 3%nat /\
  incrementVersion "5" = Ok "6" /\ incrementVersion "5" <> Ok ("5" +:+ ".1").
Proof. vm_compute. split; [discriminate|]. split; [reflexivity|discriminate]. Qed.

(** C3 (amended). The HTTP server's boolean-expression parser has no
    error path: on every input string it returns an expression tree;
    text that no [NOT], [OR], [AND] or parenthesis rule splits becomes a
    single tag, whatever it contains. *)
Theorem parseBooleanExpression_never_fails (s : string) :
  (exists e, parseBooleanExpression s = Ok e) /\
  (HasPrefix (ToUpperASCII (TrimSpace s)) "NOT " = false ->
   (length (Split (TrimSpace s) " OR ") <= 1)%nat ->
   (length (Split (TrimSpace s) " AND ") <= 1)%nat ->
   HasPrefix (TrimSpace s) "(" && HasSuffix (TrimSpace s) ")" = false ->
   parseBooleanExpression s = Ok (TagExpr (TrimSpace s))).
Proof.
  split; [apply parse_fuel_ok; lia|].
  intros Hnot Hor Hand Hpar. unfold parseBooleanExpression. cbn [parseBool_fuel].
  rewrite Hnot.
  replace (Nat.ltb 1 (length (Split (TrimSpace s) " OR "))) with false
    by (symmetry; apply Nat.ltb_ge; exact Hor).
  replace (Nat.ltb 1 (length (Split (TrimSpace s) " AND "))) with false
    by (symmetry; apply Nat.ltb_ge; exact Hand).
  rewrite Hpar. reflexivity.
Qed.

Lemma parseBooleanExpression_never_fails_witness :
  (exists e, parseBooleanExpression "(a" = Ok e) /\
  parseBooleanExpression "(a" = Ok (TagExpr "(a").
Proof.
  destruct (parseBooleanExpression_never_fails "(a") as [H1 H2].
  split; [exact H1|].
  apply H2; vm_compute; first [reflexivity|lia].
Defined.

(** C3, as stated, fails: the dangling operator ["a AND"] is not a
    valid expression, yet it is accepted, without any parse error, as
    the tag ["a AND"], which is not a tag literal of the spec's
    grammar. *)
Lemma parseBooleanExpression_accepts_dangling_and :
  parseBooleanExpression "a AND" = Ok (TagExpr "a AND") /\
  spec_tag_literal_ok "a AND" = false.
Proof. vm_compute. split; reflexivity. Qed.

Example update_scenario :
  let '(r, s') := UpdatePrompt 9 1 (svc_a "1.0.0" "") in
  r = Ok tt /\
  s'.(svc_fs).(fs_files) !! "prompts/a-v1.0.0.md" =
    Some (PromptFile (mkFrontmatter "a" "1.0.0" "A" "" ["x"; "archive"] "" 1 1)
                     (str1 10 +:+ "hello")) /\
  s'.(svc_fs).(fs_files) !! "prompts/a.md" =
    Some (PromptFile (mkFrontmatter "a" "1.0.1" "A" "" ["x"] "" 1 9)
                     (str1 10 +:+ "world")).
Proof. vm_compute. auto. Qed.

(* ------------------------------------------------------------------ *)
(** ** The monad *)

Lemma bind_inv_ok {S A B} (m : ST S A) (k : A -> ST S B) s b s'' :
  bind m k s = (Ok b, s'') -> exists a s', m s = (Ok a, s') /\ k a s' = (Ok b, s'').
Proof. unfold bind. destruct (m s) as [[a|e] s']; [eauto|discriminate]. Qed.

Lemma bind_ok {S A B} (m : ST S A) (k : A -> ST S B) s a s' :
  m s = (Ok a, s') -> bind m k s = k a s'.
Proof. unfold bind. intros ->. reflexivity. Qed.

Lemma bind_err {S A B} (m : ST S A) (k : A -> ST S B) s e s' :
  m s = (Err e, s') -> bind m k s = (Err e, s').
Proof. unfold bind. intros ->. reflexivity. Qed.

Lemma wrapErr_ok_inv {S A} msg (m : ST S A) s a s' :
  wrapErr msg m s = (Ok a, s') -> m s = (Ok a, s').
Proof. unfold wrapErr. destruct (m s) as [[?|?] ?]; congruence. Qed.

Lemma deref_inv l s a s' : deref l s = (Ok a, s') -> s.(svc_heap) !! l = Some a /\ s' = s.
Proof. unfold deref. destruct (_ !! l); intros H; inversion H; auto. Qed.

Lemma modify_inv l f s u s' :
  modify l f s = (Ok u, s') ->
  exists x, s.(svc_heap) !! l = Some x /\ s' = set_heap (<[l := f x]> s.(svc_heap)) s.
Proof. unfold modify. destruct (_ !! l); intros H; inversion H; eauto. Qed.

Lemma storageSave_inv q s u s' :
  storageSave q s = (Ok u, s') ->
  exists fs', Storage_SavePrompt s.(svc_root) s.(svc_fs) q = Ok fs' /\ s' = set_fs fs' s.
Proof. unfold storageSave. destruct (Storage_SavePrompt _ _ _); intros H; inversion H; eauto. Qed.

Lemma liftResult_inv {A} (r : result A) s a s' :
  liftResult r s = (Ok a, s') -> r = Ok a /\ s' = s.
Proof. destruct r; cbn; intros H; inversion H; auto. Qed.

Lemma ret_inv {S A} (a b : A) (s s' : S) : ret a s = (Ok b, s') -> b = a /\ s' = s.
Proof. cbn. intros H. inversion H. auto. Qed.

Ltac bind_step H :=
  let a := fresh "a" in let st := fresh "st" in let Hm := fresh "Hm" in
  apply bind_inv_ok in H; destruct H as (a & st & Hm & H); cbv beta in H.

(* ------------------------------------------------------------------ *)
(** ** Loading: fresh objects, and what a step leaves in place *)

Lemma alloc_all_sub h ps : h ⊆ (alloc_all h ps).1.
Proof.
  revert h. induction ps as [|q rest IH]; intros h; cbn; [reflexivity|].
  specialize (IH (<[fresh (dom h) := q]> h)).
  destruct (alloc_all _ rest) as [h' ls]. cbn in *.
  etransitivity; [|exact IH]. apply insert_subseteq.
  apply not_elem_of_dom, is_fresh.
Qed.

Lemma alloc_all_values h ps h' ls :
  alloc_all h ps = (h', ls) -> mapM (fun l => h' !! l) ls = Some ps.
Proof.
  intros E. apply mapM_Some. revert h h' ls E.
  induction ps as [|q rest IH]; intros h h' ls E; cbn in E.
  - inversion E. constructor.
  - pose proof (alloc_all_sub (<[fresh (dom h) := q]> h) rest) as Hsub.
    destruct (alloc_all _ rest) as [h'' ls'] eqn:E'. inversion E; subst. cbn in Hsub.
    constructor; [|eapply IH; eauto].
    eapply lookup_weaken; [apply lookup_insert_eq|exact Hsub].
Qed.

Lemma alloc_all_fresh h ps h' ls :
  alloc_all h ps = (h', ls) -> forall l, l ∈ ls -> h !! l = None.
Proof.
  revert h h' ls. induction ps as [|q rest IH]; intros h h' ls E l Hl; cbn in E.
  - inversion E; subst. inversion Hl.
  - destruct (alloc_all _ rest) as [h'' ls'] eqn:E'. inversion E; subst.
    apply elem_of_cons in Hl as [->|Hl].
    + apply not_elem_of_dom, is_fresh.
    + specialize (IH _ _ _ E' l Hl). apply lookup_insert_None in IH. tauto.
Qed.

Lemma alloc_all_length h ps h' ls :
  alloc_all h ps = (h', ls) -> length ls = length ps.
Proof.
  revert h h' ls. induction ps as [|q rest IH]; intros h h' ls E; cbn in E.
  - inversion E; reflexivity.
  - destruct (alloc_all _ rest) as [h'' ls'] eqn:E'. inversion E; subst.
    cbn. f_equal. eauto.
Qed.

Lemma alloc_all_insert p x h ps :
  is_Some (h !! p) ->
  alloc_all (<[p := x]> h) ps =
    let '(h', ls) := alloc_all h ps in (<[p := x]> h', ls).
Proof.
  revert h. induction ps as [|q rest IH]; intros h Hp; cbn; [reflexivity|].
  rewrite (dom_insert_lookup_L h p x Hp).
  assert (Hne : fresh (dom h) <> p).
  { intros Heq. apply (is_fresh (dom h)). rewrite Heq. apply elem_of_dom. exact Hp. }
  rewrite (insert_insert_ne h (fresh (dom h)) p q x) by congruence.
  rewrite IH by (rewrite lookup_insert_ne by congruence; exact Hp).
  destruct (alloc_all _ rest). reflexivity.
Qed.

(** A step of the service that keeps the store and keeps every object. *)
Definition frame (s s' : Service) : Prop :=
  s'.(svc_root) = s.(svc_root) /\ s'.(svc_fs) = s.(svc_fs) /\ s.(svc_heap) ⊆ s'.(svc_heap).

Definition Frames {A} (m : M A) : Prop := forall s r s', m s = (r, s') -> frame s s'.

Lemma frame_refl s : frame s s.
Proof. repeat split; reflexivity. Qed.

Lemma frame_trans s1 s2 s3 : frame s1 s2 -> frame s2 s3 -> frame s1 s3.
Proof.
  intros (? & ? & ?) (? & ? & ?). repeat split; try congruence. etransitivity; eauto.
Qed.

Lemma Frames_bind {A B} (m : M A) (k : A -> M B) :
  Frames m -> (forall a, Frames (k a)) -> Frames (bind m k).
Proof.
  intros Hm Hk s r s'. unfold bind. destruct (m s) as [[a|e] s1] eqn:E.
  - intros H. eapply frame_trans; [eapply Hm; eauto|eapply Hk; eauto].
  - intros H. inversion H; subst. eapply Hm; eauto.
Qed.

Lemma Frames_loadPrompts : Frames loadPrompts.
Proof.
  intros s r s'. unfold loadPrompts.
  destruct (Storage_ListPrompts _ _) as [ps|e].
  - pose proof (alloc_all_sub s.(svc_heap) ps) as Hsub.
    destruct (alloc_all _ ps) as [h' ls]. intros H; inversion H; subst.
    repeat split; auto.
  - intros H; inversion H; subst. apply frame_refl.
Qed.

Lemma Frames_ensureLoaded : Frames ensureLoaded.
Proof.
  intros s r s'. unfold ensureLoaded. destruct (decide _).
  - apply Frames_bind; [apply Frames_loadPrompts|].
    intros a s1 r1 s2 H. inversion H; subst. apply frame_refl.
  - intros H; inversion H; subst. apply frame_refl.
Qed.

Lemma Frames_ListPrompts : Frames ListPrompts.
Proof.
  apply Frames_bind; [apply Frames_ensureLoaded|].
  intros a s r s' H. inversion H; subst. apply frame_refl.
Qed.

Lemma Frames_GetPrompt id : Frames (GetPrompt id).
Proof.
  apply Frames_bind; [apply Frames_ListPrompts|].
  intros a s r s'. destruct (findByID _ _ _); intros H; inversion H; subst; apply frame_refl.
Qed.

Lemma ensureLoaded_inv s C s1 :
  ensureLoaded s = (Ok C, s1) ->
  C = s1.(svc_cache) /\
  (s.(svc_cache) <> [] -> s1 = s) /\
  (s.(svc_cache) = [] ->
     exists vs h', Storage_ListPrompts s.(svc_root) s.(svc_fs) = Ok vs /\
                   alloc_all s.(svc_heap) vs = (h', C) /\
                   s1 = set_cache C (set_heap h' s)).
Proof.
  unfold ensureLoaded. destruct (decide _) as [Hn|Hn].
  - unfold bind, loadPrompts.
    destruct (Storage_ListPrompts _ _) as [vs|e]; [|discriminate].
    destruct (alloc_all _ vs) as [h' ls] eqn:E. intros H; inversion H; subst.
    split; [reflexivity|]. split; [contradiction|]. intros _. eauto.
  - intros H; inversion H; subst. split; [reflexivity|]. split; [auto|contradiction].
Qed.

Lemma ListPrompts_inv s act s1 :
  ListPrompts s = (Ok act, s1) ->
  ensureLoaded s = (Ok s1.(svc_cache), s1) /\
  act = filter (fun l => isArchivedAt s1.(svc_heap) l = false) s1.(svc_cache).
Proof.
  intros H. bind_step H. inversion H; subst.
  destruct (ensureLoaded_inv _ _ _ Hm) as [-> _]. auto.
Qed.

Lemma ListArchivedPrompts_inv s arch s1 :
  ListArchivedPrompts s = (Ok arch, s1) ->
  ensureLoaded s = (Ok s1.(svc_cache), s1) /\
  arch = filter (fun l => isArchivedAt s1.(svc_heap) l = true) s1.(svc_cache).
Proof.
  intros H. bind_step H. inversion H; subst.
  destruct (ensureLoaded_inv _ _ _ Hm) as [-> _]. auto.
Qed.

Lemma findByID_Some h id ls l :
  findByID h id ls = Some l -> l ∈ ls /\ exists p, h !! l = Some p /\ p.(ID) = id.
Proof.
  induction ls as [|x ls IH]; cbn; [discriminate|].
  destruct (h !! x) as [p|] eqn:Hx.
  - destruct (String.eqb (ID p) id) eqn:Hid.
    + intros H; inversion H; subst. split; [left|].
      exists p. split; [auto|]. apply String.eqb_eq. exact Hid.
    + intros H. destruct (IH H) as [? ?]. split; [right|]; auto.
  - intros H. destruct (IH H) as [? ?]. split; [right|]; auto.
Qed.

Lemma findByID_None h id ls :
  (forall l p, l ∈ ls -> h !! l = Some p -> p.(ID) <> id) -> findByID h id ls = None.
Proof.
  induction ls as [|x ls IH]; intros Hall; cbn; [reflexivity|].
  destruct (h !! x) as [p|] eqn:Hx.
  - destruct (String.eqb (ID p) id) eqn:Hid.
    + apply String.eqb_eq in Hid. exfalso. eapply Hall; [left|exact Hx|exact Hid].
    + apply IH. intros l q Hl. apply Hall. right. exact Hl.
  - apply IH. intros l q Hl. apply Hall. right. exact Hl.
Qed.

Lemma GetPrompt_inv id s l s1 :
  GetPrompt id s = (Ok l, s1) ->
  exists act, ListPrompts s = (Ok act, s1) /\ findByID s1.(svc_heap) id act = Some l.
Proof.
  intros H. bind_step H. destruct (findByID _ _ _) eqn:E; inversion H; subst. eauto.
Qed.

Lemma isArchived_In p : isArchived p = true <-> In "archive" p.(Tags).
Proof.
  unfold isArchived. rewrite existsb_exists. split.
  - intros (t & Ht & Heq). apply String.eqb_eq in Heq. subst. exact Ht.
  - intros Ht. exists "archive". split; [exact Ht|]. reflexivity.
Qed.

Lemma isArchivedAt_spec h l : isArchivedAt h l = true <-> archivedAt h l.
Proof.
  unfold isArchivedAt, archivedAt. destruct (h !! l) as [p|]; split.
  - intros H. exists p. split; [reflexivity|]. apply isArchived_In. exact H.
  - intros (q & Hq & Ht). inversion Hq; subst. apply isArchived_In. exact Ht.
  - discriminate.
  - intros (q & Hq & _). discriminate.
Qed.

Lemma loadPrompts_fresh s u s' : loadPrompts s = (Ok u, s') -> cache_is_fresh s'.
Proof.
  unfold loadPrompts. destruct (Storage_ListPrompts _ _) as [vs|e] eqn:E; [|discriminate].
  destruct (alloc_all _ vs) as [h' ls] eqn:Ea. intros H; inversion H; subst.
  exists vs. split; [exact E|]. eapply alloc_all_values. exact Ea.
Qed.

(** Programs whose successful runs all end in [loadPrompts]. *)
Definition EndsInLoad (m : M unit) : Prop :=
  forall s s', m s = (Ok tt, s') -> cache_is_fresh s'.

Lemma EndsInLoad_load : EndsInLoad loadPrompts.
Proof. intros s s' H. eapply loadPrompts_fresh. exact H. Qed.

Lemma EndsInLoad_bind {A} (m : M A) (k : A -> M unit) :
  (forall a, EndsInLoad (k a)) -> EndsInLoad (bind m k).
Proof. intros Hk s s' H. bind_step H. eapply Hk. exact H. Qed.

Ltac ends_in_load :=
  repeat (apply EndsInLoad_bind; intro); apply EndsInLoad_load.

Lemma EndsInLoad_CreatePrompt now p : EndsInLoad (CreatePrompt now p).
Proof. unfold CreatePrompt. ends_in_load. Qed.

Lemma EndsInLoad_UpdatePrompt now p : EndsInLoad (UpdatePrompt now p).
Proof. unfold UpdatePrompt. ends_in_load. Qed.

Lemma EndsInLoad_DeletePrompt id : EndsInLoad (DeletePrompt id).
Proof. unfold DeletePrompt. ends_in_load. Qed.

Lemma EndsInLoad_SavePrompt now p : EndsInLoad (SavePrompt now p).
Proof.
  unfold SavePrompt. apply EndsInLoad_bind. intros cur.
  apply EndsInLoad_bind. intros [existing|e].
  - do 3 (apply EndsInLoad_bind; intro). apply EndsInLoad_UpdatePrompt.
  - apply EndsInLoad_CreatePrompt.
Qed.

Lemma filter_archived_perm h C :
  filter (fun l => isArchivedAt h l = false) C ++
  filter (fun l => isArchivedAt h l = true) C ≡ₚ C.
Proof.
  rewrite (list_filter_iff (fun l => isArchivedAt h l = true)
                           (fun l => ~ isArchivedAt h l = false)).
  - apply filter_app_complement.
  - intros l. destruct (isArchivedAt h l); split; congruence.
Qed.

Lemma GetPrompt_not_found id s C s1 :
  ensureLoaded s = (Ok C, s1) ->
  (forall l p, l ∈ C -> s1.(svc_heap) !! l = Some p -> p.(ID) = id -> In "archive" p.(Tags)) ->
  GetPrompt id s = (Err ("prompt not found: " +:+ id), s1).
Proof.
  intros E Hall. destruct (ensureLoaded_inv _ _ _ E) as [HC _].
  unfold GetPrompt, ListPrompts, bind. rewrite E. cbv beta iota.
  rewrite findByID_None; [reflexivity|].
  intros l p Hl Hp Hid. apply list_elem_of_filter in Hl as [Hna Hl].
  specialize (Hall l p Hl Hp Hid). apply isArchived_In in Hall.
  unfold isArchivedAt in Hna. rewrite Hp in Hna. congruence.
Qed.

Lemma Storage_SavePrompt_files root fs q fs' :
  Storage_SavePrompt root fs q = Ok fs' ->
  fs'.(fs_files) = <[ q.(FilePath) := serializePrompt q ]> fs.(fs_files).
Proof.
  unfold Storage_SavePrompt.
  destruct (existsb _ _); [discriminate|]. destruct (decide _); [discriminate|].
  intros H. inversion H. reflexivity.
Qed.

Ltac bind_as H a st Hm :=
  apply bind_inv_ok in H; destruct H as (a & st & Hm & H); cbv beta in H.

Tactic Notation "svc_simpl" :=
  cbn [svc_heap svc_fs svc_root svc_cache set_heap set_fs set_cache].
Tactic Notation "svc_simpl" "in" ne_hyp_list(Hs) :=
  cbn [svc_heap svc_fs svc_root svc_cache set_heap set_fs set_cache] in Hs.

Ltac finish_update :=
  match goal with
  | Hsame : ?l = ?p -> ?prev = ?inc |- _ =>
      destruct (decide (l = p)) as [Heq|Hne];
      [pose proof (Hsame Heq); subst prev|];
      cbn [FilePath CreatedAt set_UpdatedAt set_CreatedAt set_Version set_FilePath] in *;
      match goal with
      | Hh : _ ⊆ svc_heap _, Hf : svc_fs _ = _, Hfs3 : fs_files _ = _,
        Hfs2 : fs_files ?fs2 = _, Hf1 : svc_fs _ = svc_fs _ |- _ =>
          split; [eapply lookup_weaken; [apply lookup_insert_eq|exact Hh]
                 |rewrite Hf; cbn [fs_files]; rewrite Hfs3, Hfs2, Hf1; reflexivity]
      end
  end.

(** Everything a successful [UpdatePrompt] has done, read back from the
    steps of the source. *)
Lemma UpdatePrompt_ok_inv now p s s' :
  UpdatePrompt now p s = (Ok tt, s') ->
  exists inc l s1 ex v,
    s.(svc_heap) !! p = Some inc /\
    GetPrompt inc.(ID) s = (Ok l, s1) /\
    s1.(svc_heap) !! l = Some ex /\
    incrementVersion ex.(Version) = Ok v /\
    s'.(svc_heap) !! p = Some (liveCopy now inc ex v) /\
    s'.(svc_fs).(fs_files) =
      <[ (liveCopy now inc ex v).(FilePath) := serializePrompt (liveCopy now inc ex v) ]>
        (<[ archivePath ex := serializePrompt (archivedCopy ex) ]> s.(svc_fs).(fs_files)).
Proof.
  intros H. unfold UpdatePrompt in H.
  bind_as H inc s0 Hm. apply deref_inv in Hm as [Hinc ->].
  bind_as H l s1 HG. apply wrapErr_ok_inv in HG.
  destruct (Frames_GetPrompt _ _ _ _ HG) as (Hr1 & Hf1 & Hh1).
  assert (Hinc1 : s1.(svc_heap) !! p = Some inc) by (eapply lookup_weaken; eauto).
  bind_as H prev s2 Hm. apply deref_inv in Hm as [Hex ->].
  assert (Hsel : forall y, <[p := y]> s1.(svc_heap) !! l =
                           Some (if decide (l = p) then y else prev)).
  { intros y. destruct (decide (l = p)) as [->|Hne].
    - apply lookup_insert_eq.
    - rewrite lookup_insert_ne by congruence. exact Hex. }
  assert (Hsame : l = p -> prev = inc) by (intros ->; congruence).
  bind_as H u1 s2 Hm. apply wrapErr_ok_inv, storageSave_inv in Hm as (fs2 & Hfs2 & ->).
  bind_as H v s3 Hm. apply wrapErr_ok_inv, liftResult_inv in Hm as [Hv ->].
  bind_as H u2 s3 Hm. apply modify_inv in Hm as (x1 & Hx1 & ->). svc_simpl in Hx1.
  rewrite Hinc1 in Hx1. injection Hx1 as <-.
  bind_as H e1 s4 Hm. apply deref_inv in Hm as [Hex1 ->]. svc_simpl in Hex1.
  rewrite Hsel in Hex1. injection Hex1 as <-.
  bind_as H u3 s5 Hm. apply modify_inv in Hm as (x2 & Hx2 & ->). svc_simpl in Hx2.
  rewrite lookup_insert_eq in Hx2. injection Hx2 as <-.
  bind_as H u4 s6 Hm. apply modify_inv in Hm as (x3 & Hx3 & ->). svc_simpl in Hx3.
  rewrite lookup_insert_eq in Hx3. injection Hx3 as <-.
  bind_as H cur s7 Hm. apply deref_inv in Hm as [Hcur ->]. svc_simpl in Hcur.
  rewrite lookup_insert_eq in Hcur. injection Hcur as <-.
  svc_simpl in H. rewrite !insert_insert_eq in H.
  bind_as H u5 s8 Hm.
  cbn [FilePath set_UpdatedAt set_CreatedAt set_Version] in Hm.
  assert (Hfa : FilePath (archivedCopy prev) = archivePath prev) by reflexivity.
  apply Storage_SavePrompt_files in Hfs2. rewrite Hfa in Hfs2.
  exists inc, l, s1, prev, v.
  split; [exact Hinc|]. split; [exact HG|]. split; [exact Hex|]. split; [exact Hv|].
  unfold liveCopy.
  destruct (String.eqb (FilePath inc) "") eqn:Ef.
  - bind_as Hm e2 s8' Hm3. apply deref_inv in Hm3 as [He2 ->]. svc_simpl in He2.
    rewrite Hsel in He2. injection He2 as <-.
    apply modify_inv in Hm as (x4 & Hx4 & ->). svc_simpl in Hx4.
    rewrite lookup_insert_eq in Hx4. injection Hx4 as <-.
    bind_as H live s9 Hm2. apply deref_inv in Hm2 as [Hlive ->]. svc_simpl in Hlive.
    rewrite insert_insert_eq, lookup_insert_eq in Hlive. injection Hlive as <-.
    bind_as H u6 s10 Hm2. apply storageSave_inv in Hm2 as (fs3 & Hfs3 & ->).
    apply Storage_SavePrompt_files in Hfs3.
    destruct (Frames_loadPrompts _ _ _ H) as (_ & Hf & Hh).
    svc_simpl in Hf Hh Hfs3. rewrite insert_insert_eq in Hh.
    finish_update.
  - apply ret_inv in Hm as [_ ->].
    bind_as H live s9 Hm2. apply deref_inv in Hm2 as [Hlive ->]. svc_simpl in Hlive.
    rewrite lookup_insert_eq in Hlive. injection Hlive as <-.
    bind_as H u6 s10 Hm2. apply storageSave_inv in Hm2 as (fs3 & Hfs3 & ->).
    apply Storage_SavePrompt_files in Hfs3.
    destruct (Frames_loadPrompts _ _ _ H) as (_ & Hf & Hh).
    svc_simpl in Hf Hh Hfs3.
    finish_update.
Qed.


(* ------------------------------------------------------------------ *)
(** ** Claims on the service *)

(** C1 fails in the code: the CLI's [edit] changes the cached object
    that [GetPrompt] returned before it calls [UpdatePrompt], whose own
    [GetPrompt] returns that same object, so the archived copy
    [prompts/a-v1.0.0.md] holds the new content ["world"] and the text
    ["hello"] of the version it archives is gone from the library. *)
Example cli_edit_archives_new_content :
  let '(r, s') := cliEditPrompt 9 "a" ["--content"; "world"] (mkService "/lib" fs_a ∅ []) in
  r = Ok tt /\
  s'.(svc_fs).(fs_files) !! "prompts/a-v1.0.0.md" =
    Some (PromptFile (mkFrontmatter "a" "1.0.0" "A" "" ["x"; "archive"] "" 1 1)
                     (str1 10 +:+ "world")) /\
  s'.(svc_fs).(fs_files) !! "prompts/a.md" =
    Some (PromptFile (mkFrontmatter "a" "1.0.1" "A" "" ["x"] "" 1 9)
                     (str1 10 +:+ "world")).
Proof. vm_compute. auto. Qed.

(** C4. Once [ListPrompts] and then [ListArchivedPrompts] have both
    succeeded, the two lists together are a permutation of the cache
    (the enumerated prompts); no active prompt carries the tag
    ["archive"] and every archived one does. When the cache was
    already filled, neither call changes the state. *)
Theorem active_archived_partition s act s1 arch s2 :
  ListPrompts s = (Ok act, s1) ->
  ListArchivedPrompts s1 = (Ok arch, s2) ->
  act ++ arch ≡ₚ s2.(svc_cache) /\
  (forall l, l ∈ act -> ~ archivedAt s2.(svc_heap) l) /\
  (forall l, l ∈ arch -> archivedAt s2.(svc_heap) l) /\
  (s.(svc_cache) <> [] -> s2 = s).
Proof.
  intros H1 H2.
  apply ListPrompts_inv in H1 as [E1 ->].
  apply ListArchivedPrompts_inv in H2 as [E2 ->].
  destruct (ensureLoaded_inv _ _ _ E1) as (_ & Hkeep1 & Hload1).
  destruct (ensureLoaded_inv _ _ _ E2) as (_ & Hkeep2 & Hload2).
  destruct (decide (s1.(svc_cache) = [])) as [Hn|Hn].
  - assert (Hs : s.(svc_cache) = []).
    { destruct (decide (s.(svc_cache) = [])) as [|Hs]; [assumption|].
      rewrite (Hkeep1 Hs) in Hn. contradiction. }
    destruct (Hload1 Hs) as (vs & h' & Hst & Ha & Hs1).
    rewrite Hn in Ha.
    apply alloc_all_length in Ha. destruct vs; [|discriminate].
    destruct (Hload2 Hn) as (vs2 & h2 & Hst2 & Ha2 & Hs2).
    rewrite Hs1 in Hst2. svc_simpl in Hst2. rewrite Hst in Hst2. injection Hst2 as <-.
    cbn in Ha2. injection Ha2 as <- <-. rewrite Hs2. svc_simpl. rewrite Hn.
    split; [reflexivity|]. split; [intros l Hl; inversion Hl|].
    split; [intros l Hl; inversion Hl|]. contradiction.
  - rewrite (Hkeep2 Hn). split; [apply filter_archived_perm|]. split; [|split].
    + intros l Hl. apply list_elem_of_filter in Hl as [Hl _].
      rewrite <- isArchivedAt_spec. congruence.
    + intros l Hl. apply list_elem_of_filter in Hl as [Hl _].
      apply isArchivedAt_spec. exact Hl.
    + intros Hs. rewrite (Hkeep1 Hs). reflexivity.
Qed.

Lemma active_archived_partition_witness :
  let s := (UpdatePrompt 9 1 (svc_a "1.0.0" "")).2 in
  let r1 := ListPrompts s in
  let act := match r1.1 with Ok a => a | Err _ => [] end in
  let r2 := ListArchivedPrompts r1.2 in
  let arch := match r2.1 with Ok a => a | Err _ => [] end in
  length act = 1%nat /\ length arch = 1%nat /\ act ++ arch ≡ₚ r2.2.(svc_cache).
Proof.
  intros s r1 act r2 arch.
  assert (E1 : ListPrompts s = (Ok act, r1.2)) by (vm_compute; reflexivity).
  assert (E2 : ListArchivedPrompts r1.2 = (Ok arch, r2.2)) by (vm_compute; reflexivity).
  destruct (active_archived_partition s act r1.2 arch r2.2 E1 E2) as (Hp & _).
  split; [vm_compute; reflexivity|]. split; [vm_compute; reflexivity|]. exact Hp.
Defined.

(** C5. After a successful [CreatePrompt], [UpdatePrompt],
    [DeletePrompt] or [SavePrompt], the cache holds, in order, the
    prompts a fresh enumeration of the store returns. *)
Theorem mutation_refreshes_cache now p id s s' :
  CreatePrompt now p s = (Ok tt, s') \/ UpdatePrompt now p s = (Ok tt, s') \/
  DeletePrompt id s = (Ok tt, s') \/ SavePrompt now p s = (Ok tt, s') ->
  cache_is_fresh s'.
Proof.
  intros [H|[H|[H|H]]].
  - eapply EndsInLoad_CreatePrompt. exact H.
  - eapply EndsInLoad_UpdatePrompt. exact H.
  - eapply EndsInLoad_DeletePrompt. exact H.
  - eapply EndsInLoad_SavePrompt. exact H.
Qed.

Lemma mutation_refreshes_cache_witness :
  cache_is_fresh (UpdatePrompt 9 1 (svc_a "1.0.0" "")).2.
Proof.
  apply (mutation_refreshes_cache 9 1 "a" (svc_a "1.0.0" "")).
  right. left. vm_compute. reflexivity.
Defined.

(** C8. With the empty query, [SearchPrompts] is [ListPrompts]: the
    fuzzy matcher is not consulted, and the list comes back as it is. *)
Theorem SearchPrompts_empty_query fuzzyFind s :
  SearchPrompts fuzzyFind "" s = ListPrompts s.
Proof. unfold SearchPrompts, bind. destruct (ListPrompts s) as [[?|?] ?]; reflexivity. Qed.

(** C10. The object [GetPrompt id] returns has id [id] and does not
    carry the tag ["archive"]. When every enumerated object with id
    [id] carries it, [GetPrompt id] fails with ["prompt not found"],
    and so do [DeletePrompt id] and [UpdatePrompt] of an object with
    that id. *)
Theorem GetPrompt_never_archived (id : string) :
  (forall s l s', GetPrompt id s = (Ok l, s') ->
     exists p, s'.(svc_heap) !! l = Some p /\ p.(ID) = id /\ ~ In "archive" p.(Tags)) /\
  (forall s C s1, ensureLoaded s = (Ok C, s1) ->
     (forall l p, l ∈ C -> s1.(svc_heap) !! l = Some p -> p.(ID) = id ->
                  In "archive" p.(Tags)) ->
     (GetPrompt id s).1 = Err ("prompt not found: " +:+ id) /\
     (DeletePrompt id s).1 = Err ("prompt not found: " +:+ id) /\
     (forall now p inc, s.(svc_heap) !! p = Some inc -> inc.(ID) = id ->
        (UpdatePrompt now p s).1 =
          Err ("cannot update non-existent prompt: " +:+ ("prompt not found: " +:+ id)))).
Proof.
  split.
  - intros s l s' H.
    destruct (GetPrompt_inv _ _ _ _ H) as (act & HL & Hf).
    destruct (ListPrompts_inv _ _ _ HL) as [_ ->].
    destruct (findByID_Some _ _ _ _ Hf) as (Hl & p & Hp & Hid).
    exists p. split; [exact Hp|]. split; [exact Hid|].
    apply list_elem_of_filter in Hl as [Hna _].
    intros Hin. apply isArchived_In in Hin.
    unfold isArchivedAt in Hna. rewrite Hp in Hna. congruence.
  - intros s C s1 E Hall.
    pose proof (GetPrompt_not_found _ _ _ _ E Hall) as HG.
    split; [rewrite HG; reflexivity|]. split.
    + unfold DeletePrompt. rewrite (bind_err _ _ _ _ _ HG). reflexivity.
    + intros now p inc Hp Hid. unfold UpdatePrompt.
      rewrite (bind_ok (deref p) _ s inc s) by (unfold deref; rewrite Hp; reflexivity).
      rewrite Hid.
      rewrite (bind_err _ _ s ("cannot update non-existent prompt: " +:+
                                 ("prompt not found: " +:+ id)) s1)
        by (unfold wrapErr; rewrite HG; reflexivity).
      reflexivity.
Qed.

Lemma GetPrompt_never_archived_witness :
  (exists l s' p, GetPrompt "a" (svc_a "1.0.0" "") = (Ok l, s') /\
     s'.(svc_heap) !! l = Some p /\ ~ In "archive" p.(Tags)) /\
  (GetPrompt "a" (mkService "/lib" fs_archived_a ∅ [])).1 = Err ("prompt not found: " +:+ "a") /\
  (DeletePrompt "a" (mkService "/lib" fs_archived_a ∅ [])).1 = Err ("prompt not found: " +:+ "a").
Proof.
  destruct (GetPrompt_never_archived "a") as [H1 H2]. split.
  - set (r := GetPrompt "a" (svc_a "1.0.0" "")).
    assert (E : GetPrompt "a" (svc_a "1.0.0" "") =
                (Ok (match r.1 with Ok l => l | Err _ => 1%positive end), r.2))
      by (vm_compute; reflexivity).
    destruct (H1 _ _ _ E) as (p & Hp & _ & Hn).
    exists (match r.1 with Ok l => l | Err _ => 1%positive end), r.2, p. auto.
  - set (r := ensureLoaded (mkService "/lib" fs_archived_a ∅ [])).
    assert (E : ensureLoaded (mkService "/lib" fs_archived_a ∅ []) =
                (Ok (match r.1 with Ok c => c | Err _ => [] end), r.2))
      by (vm_compute; reflexivity).
    destruct (H2 _ _ _ E) as (HG & HD & _).
    + intros l p Hl Hp _. vm_compute in Hl. apply list_elem_of_singleton in Hl.
      subst l. vm_compute in Hp. injection Hp as <-. cbn. auto.
    + split; assumption.
Defined.

(* ------------------------------------------------------------------ *)
(** ** Updating the incoming object ahead of [UpdatePrompt] *)

Lemma ensureLoaded_upd p x s :
  is_Some (s.(svc_heap) !! p) ->
  ensureLoaded (set_heap (<[p := x]> s.(svc_heap)) s) =
    let '(r, s1) := ensureLoaded s in (r, set_heap (<[p := x]> s1.(svc_heap)) s1).
Proof.
  intros Hp. unfold ensureLoaded. svc_simpl.
  destruct (decide (svc_cache s = [])); [|reflexivity].
  unfold bind, loadPrompts. svc_simpl.
  destruct (Storage_ListPrompts _ _) as [vs|err]; [|reflexivity].
  rewrite alloc_all_insert by exact Hp.
  destruct (alloc_all _ vs). reflexivity.
Qed.

Lemma ensureLoaded_keeps p s C s1 :
  is_Some (s.(svc_heap) !! p) -> p ∉ s.(svc_cache) ->
  ensureLoaded s = (Ok C, s1) ->
  (p ∉ s1.(svc_cache)) /\ is_Some (s1.(svc_heap) !! p) /\ C = s1.(svc_cache).
Proof.
  intros Hp Hc E.
  destruct (Frames_ensureLoaded _ _ _ E) as (_ & _ & Hh).
  destruct (ensureLoaded_inv _ _ _ E) as (HC & Hkeep & Hload).
  split; [|split; [eapply lookup_weaken_is_Some; eauto|exact HC]].
  destruct (decide (s.(svc_cache) = [])) as [Hn|Hn].
  - destruct (Hload Hn) as (vs & h' & _ & Ha & ->). svc_simpl.
    intros Hin. pose proof (alloc_all_fresh _ _ _ _ Ha p Hin) as Hnone.
    destruct Hp as [y Hy]. congruence.
  - rewrite (Hkeep Hn). exact Hc.
Qed.

Lemma filter_upd p x h b (C : list loc) :
  p ∉ C ->
  filter (fun l => isArchivedAt (<[p := x]> h) l = b) C =
  filter (fun l => isArchivedAt h l = b) C.
Proof.
  induction C as [|a C IH]; intros Hn; [reflexivity|].
  apply not_elem_of_cons in Hn as [Ha Hn].
  assert (Heq : isArchivedAt (<[p := x]> h) a = isArchivedAt h a).
  { unfold isArchivedAt. rewrite lookup_insert_ne by congruence. reflexivity. }
  rewrite !filter_cons, Heq, IH by exact Hn. reflexivity.
Qed.

Lemma findByID_upd p x h id ls :
  p ∉ ls -> findByID (<[p := x]> h) id ls = findByID h id ls.
Proof.
  induction ls as [|a ls IH]; intros Hn; [reflexivity|].
  apply not_elem_of_cons in Hn as [Ha Hn]. cbn.
  rewrite lookup_insert_ne by congruence. rewrite IH by exact Hn. reflexivity.
Qed.

Lemma ListPrompts_upd p x s :
  is_Some (s.(svc_heap) !! p) -> p ∉ s.(svc_cache) ->
  ListPrompts (set_heap (<[p := x]> s.(svc_heap)) s) =
    let '(r, s1) := ListPrompts s in (r, set_heap (<[p := x]> s1.(svc_heap)) s1).
Proof.
  intros Hp Hc. unfold ListPrompts, bind. rewrite ensureLoaded_upd by exact Hp.
  destruct (ensureLoaded s) as [[C|e] s1] eqn:E; [|reflexivity].
  destruct (ensureLoaded_keeps _ _ _ _ Hp Hc E) as (Hn & _ & ->).
  svc_simpl. rewrite filter_upd by exact Hn. reflexivity.
Qed.

Lemma ListPrompts_keeps p s act s1 :
  is_Some (s.(svc_heap) !! p) -> p ∉ s.(svc_cache) ->
  ListPrompts s = (Ok act, s1) ->
  (p ∉ s1.(svc_cache)) /\ is_Some (s1.(svc_heap) !! p) /\ (p ∉ act).
Proof.
  intros Hp Hc E. destruct (ListPrompts_inv _ _ _ E) as [E1 ->].
  destruct (ensureLoaded_keeps _ _ _ _ Hp Hc E1) as (Hn & Hs & _).
  split; [exact Hn|]. split; [exact Hs|].
  intros Hin. apply list_elem_of_filter in Hin as [_ Hin]. contradiction.
Qed.

Lemma GetPrompt_upd p x id s :
  is_Some (s.(svc_heap) !! p) -> p ∉ s.(svc_cache) ->
  GetPrompt id (set_heap (<[p := x]> s.(svc_heap)) s) =
    let '(r, s1) := GetPrompt id s in (r, set_heap (<[p := x]> s1.(svc_heap)) s1).
Proof.
  intros Hp Hc. unfold GetPrompt, bind. rewrite ListPrompts_upd by assumption.
  destruct (ListPrompts s) as [[act|e] s1] eqn:E; [|reflexivity].
  destruct (ListPrompts_keeps _ _ _ _ Hp Hc E) as (_ & _ & Hn).
  svc_simpl. rewrite findByID_upd by exact Hn.
  destruct (findByID _ _ _); reflexivity.
Qed.

Lemma GetPrompt_not_at p id s l s1 :
  is_Some (s.(svc_heap) !! p) -> p ∉ s.(svc_cache) ->
  GetPrompt id s = (Ok l, s1) -> l <> p.
Proof.
  intros Hp Hc E. destruct (GetPrompt_inv _ _ _ _ E) as (act & HL & Hf).
  destruct (ListPrompts_keeps _ _ _ _ Hp Hc HL) as (_ & _ & Hn).
  destruct (findByID_Some _ _ _ _ Hf) as [Hl _]. congruence.
Qed.

Lemma set_Version_twice v w q : set_Version v (set_Version w q) = set_Version v q.
Proof. reflexivity. Qed.

Definition same_success (r1 r2 : result unit * Service) : Prop :=
  r1.1 = r2.1 /\ (r1.1 = Ok tt -> r1.2 = r2.2).

Lemma wrapErr_ok {S A} msg (m : ST S A) s a s' :
  m s = (Ok a, s') -> wrapErr msg m s = (Ok a, s').
Proof. unfold wrapErr. intros ->. reflexivity. Qed.

Lemma wrapErr_err {S A} msg (m : ST S A) s e s' :
  m s = (Err e, s') -> wrapErr msg m s = (Err (msg +:+ e), s').
Proof. unfold wrapErr. intros ->. reflexivity. Qed.

Lemma UpdatePrompt_same_success now p s inc v1 v2 :
  s.(svc_heap) !! p = Some inc -> p ∉ s.(svc_cache) ->
  same_success (UpdatePrompt now p (set_heap (<[p := set_Version v1 inc]> s.(svc_heap)) s))
               (UpdatePrompt now p (set_heap (<[p := set_Version v2 inc]> s.(svc_heap)) s)).
Proof.
  intros Hp Hc. assert (Hs : is_Some (s.(svc_heap) !! p)) by (rewrite Hp; eauto).
  assert (Hd : forall v, deref p (set_heap (<[p := set_Version v inc]> s.(svc_heap)) s) =
                         (Ok (set_Version v inc), set_heap (<[p := set_Version v inc]> s.(svc_heap)) s)).
  { intros v. unfold deref. svc_simpl. rewrite lookup_insert_eq. reflexivity. }
  unfold UpdatePrompt.
  rewrite (bind_ok _ _ _ _ _ (Hd v1)), (bind_ok _ _ _ _ _ (Hd v2)). cbv beta.
  change (ID (set_Version v1 inc)) with (ID inc).
  change (ID (set_Version v2 inc)) with (ID inc).
  pose proof (fun v => GetPrompt_upd p (set_Version v inc) (ID inc) s Hs Hc) as HGv.
  destruct (GetPrompt (ID inc) s) as [[l|e] s1] eqn:EG.
  2:{ rewrite (bind_err _ _ _ _ _ (wrapErr_err _ _ _ _ _ (HGv v1))),
              (bind_err _ _ _ _ _ (wrapErr_err _ _ _ _ _ (HGv v2))).
      split; [reflexivity|discriminate]. }
  rewrite (bind_ok _ _ _ _ _ (wrapErr_ok _ _ _ _ _ (HGv v1))),
          (bind_ok _ _ _ _ _ (wrapErr_ok _ _ _ _ _ (HGv v2))). cbv beta.
  pose proof (GetPrompt_not_at _ _ _ _ _ Hs Hc EG) as Hne.
  assert (Hl : forall v, deref l (set_heap (<[p := set_Version v inc]> s1.(svc_heap)) s1) =
                         match s1.(svc_heap) !! l with
                         | Some q => (Ok q, set_heap (<[p := set_Version v inc]> s1.(svc_heap)) s1)
                         | None => (Err "invalid memory address or nil pointer dereference",
                                    set_heap (<[p := set_Version v inc]> s1.(svc_heap)) s1)
                         end).
  { intros v. unfold deref. svc_simpl. rewrite lookup_insert_ne by congruence. reflexivity. }
  destruct (s1.(svc_heap) !! l) as [ex|] eqn:Hex.
  2:{ rewrite (bind_err _ _ _ _ _ (Hl v1)), (bind_err _ _ _ _ _ (Hl v2)).
      split; [reflexivity|discriminate]. }
  rewrite (bind_ok _ _ _ _ _ (Hl v1)), (bind_ok _ _ _ _ _ (Hl v2)). cbv beta.
  assert (Ha : forall v, archivePromptByTag ex (set_heap (<[p := set_Version v inc]> s1.(svc_heap)) s1) =
                         match Storage_SavePrompt s1.(svc_root) s1.(svc_fs) (archivedCopy ex) with
                         | Ok fs' => (Ok tt, set_fs fs' (set_heap (<[p := set_Version v inc]> s1.(svc_heap)) s1))
                         | Err e => (Err e, set_heap (<[p := set_Version v inc]> s1.(svc_heap)) s1)
                         end) by reflexivity.
  destruct (Storage_SavePrompt _ _ (archivedCopy ex)) as [fs2|e] eqn:Efs.
  2:{ rewrite (bind_err _ _ _ _ _ (wrapErr_err _ _ _ _ _ (Ha v1))),
              (bind_err _ _ _ _ _ (wrapErr_err _ _ _ _ _ (Ha v2))).
      split; [reflexivity|discriminate]. }
  rewrite (bind_ok _ _ _ _ _ (wrapErr_ok _ _ _ _ _ (Ha v1))),
          (bind_ok _ _ _ _ _ (wrapErr_ok _ _ _ _ _ (Ha v2))). cbv beta.
  assert (Hi : forall v, liftResult (incrementVersion ex.(Version))
                           (set_fs fs2 (set_heap (<[p := set_Version v inc]> s1.(svc_heap)) s1)) =
                         (incrementVersion ex.(Version),
                          set_fs fs2 (set_heap (<[p := set_Version v inc]> s1.(svc_heap)) s1))).
  { intros v. destruct (incrementVersion _); reflexivity. }
  destruct (incrementVersion ex.(Version)) as [nv|e] eqn:Ev.
  2:{ rewrite (bind_err _ _ _ _ _ (wrapErr_err _ _ _ _ _ (Hi v1))),
              (bind_err _ _ _ _ _ (wrapErr_err _ _ _ _ _ (Hi v2))).
      split; [reflexivity|discriminate]. }
  rewrite (bind_ok _ _ _ _ _ (wrapErr_ok _ _ _ _ _ (Hi v1))),
          (bind_ok _ _ _ _ _ (wrapErr_ok _ _ _ _ _ (Hi v2))). cbv beta.
  assert (Hm : forall v, modify p (set_Version nv)
                           (set_fs fs2 (set_heap (<[p := set_Version v inc]> s1.(svc_heap)) s1)) =
                         (Ok tt, set_heap (<[p := set_Version nv inc]> s1.(svc_heap)) (set_fs fs2 s1))).
  { intros v. unfold modify. svc_simpl. rewrite lookup_insert_eq, insert_insert_eq. reflexivity. }
  rewrite (bind_ok _ _ _ _ _ (Hm v1)), (bind_ok _ _ _ _ _ (Hm v2)).
  split; reflexivity.
Qed.



(** C9. Take an object [inc] at [p] that the cache does not hold (it
    is the caller's own object, not the cached one). Two runs of
    [UpdatePrompt] whose incoming objects differ only in their version
    have the same outcome, and the same final state when they succeed.
    On success the live object and the live file carry the bump of the
    version of the stored copy that [GetPrompt] finds. *)
Theorem UpdatePrompt_version_from_store now p s inc v1 v2 :
  s.(svc_heap) !! p = Some inc -> p ∉ s.(svc_cache) ->
  same_success (UpdatePrompt now p (set_heap (<[p := set_Version v1 inc]> s.(svc_heap)) s))
               (UpdatePrompt now p (set_heap (<[p := set_Version v2 inc]> s.(svc_heap)) s)) /\
  (forall s', UpdatePrompt now p (set_heap (<[p := set_Version v1 inc]> s.(svc_heap)) s) = (Ok tt, s') ->
     exists l s1 ex v,
       GetPrompt inc.(ID) s = (Ok l, s1) /\ s1.(svc_heap) !! l = Some ex /\
       incrementVersion ex.(Version) = Ok v /\
       exists live, s'.(svc_heap) !! p = Some live /\ live.(Version) = v /\
                    s'.(svc_fs).(fs_files) !! live.(FilePath) = Some (serializePrompt live)).
Proof.
  intros Hp Hc. split; [apply UpdatePrompt_same_success; assumption|].
  intros s' H. assert (Hs : is_Some (s.(svc_heap) !! p)) by (rewrite Hp; eauto).
  destruct (UpdatePrompt_ok_inv _ _ _ _ H)
    as (inc' & l & s1' & ex & v & Hinc & HG & Hex & Hv & Hlive & Hfiles).
  svc_simpl in Hinc. rewrite lookup_insert_eq in Hinc. injection Hinc as <-.
  change (ID (set_Version v1 inc)) with (ID inc) in HG.
  rewrite GetPrompt_upd in HG by assumption.
  destruct (GetPrompt (ID inc) s) as [[l0|e] s1] eqn:EG; [|discriminate].
  injection HG as <- <-.
  pose proof (GetPrompt_not_at _ _ _ _ _ Hs Hc EG) as Hne.
  svc_simpl in Hex. rewrite lookup_insert_ne in Hex by congruence.
  exists l0, s1, ex, v. split; [reflexivity|]. split; [exact Hex|]. split; [exact Hv|].
  exists (liveCopy now (set_Version v1 inc) ex v).
  split; [exact Hlive|]. split; [reflexivity|].
  rewrite Hfiles. apply lookup_insert_eq.
Qed.

(** The caller's object at location 1, next to a filled cache. *)
Lemma UpdatePrompt_version_from_store_witness :
  let s := (GetPrompt "a" (svc_a "1.0.0" "")).2 in
  same_success
    (UpdatePrompt 9 1 (set_heap (<[1%positive := set_Version "0.0.1" (incoming_a "1.0.0" "")]> s.(svc_heap)) s))
    (UpdatePrompt 9 1 (set_heap (<[1%positive := set_Version "9.9" (incoming_a "1.0.0" "")]> s.(svc_heap)) s)) /\
  (UpdatePrompt 9 1 (set_heap (<[1%positive := set_Version "0.0.1" (incoming_a "1.0.0" "")]> s.(svc_heap)) s)).1 = Ok tt.
Proof.
  intros s.
  destruct (UpdatePrompt_version_from_store 9 1 s (incoming_a "1.0.0" "") "0.0.1" "9.9")
    as [H _].
  - vm_compute. reflexivity.
  - assert (Hc : svc_cache s = [2%positive]) by (vm_compute; reflexivity).
    rewrite Hc, list_elem_of_singleton. discriminate.
  - split; [exact H|]. vm_compute. reflexivity.
Defined.

(* ------------------------------------------------------------------ *)
(** ** Git: what each step appends to the log *)

Lemma exec_git_eq git args log :
  exec_git git args log = (Ok (git log args), log ++ [(args, git log args)]).
Proof. reflexivity. Qed.

Lemma runGitCommand_eq git args log :
  runGitCommand git args log = (gitResult args (git log args), log ++ [(args, git log args)]).
Proof.
  unfold runGitCommand. rewrite (bind_ok _ _ _ _ _ (exec_git_eq git args log)).
  destruct (gitResult args (git log args)) as [[]|e]; reflexivity.
Qed.

Lemma attempt_run_eq git args log :
  attempt (runGitCommand git args) log =
  (Ok (gitResult args (git log args)), log ++ [(args, git log args)]).
Proof. unfold attempt. rewrite runGitCommand_eq. reflexivity. Qed.

Lemma getCurrentBranch_eq git log :
  exists b, getCurrentBranch git log = (Ok b, log ++ [(branchArgs, git log branchArgs)]).
Proof.
  unfold getCurrentBranch. rewrite (bind_ok _ _ _ _ _ (exec_git_eq git branchArgs log)).
  eexists. reflexivity.
Qed.

Lemma gitResult_Err args o e : gitResult args o = Err e -> succeeded o = false.
Proof.
  destruct o as [c out|]; cbn; [|reflexivity]. destruct (Z.eqb c 0); congruence.
Qed.

Lemma gitResult_Ok args o u : gitResult args o = Ok u -> succeeded o = true.
Proof.
  destruct o as [c out|]; cbn; [|discriminate]. destruct (Z.eqb c 0); congruence.
Qed.

Section Runs.
Variable git : GitLog -> list string -> outcome.
Variable g : GitSync.
(** A relation between the log before and after a step, closed under
    sequencing, and which every command respects that is not a [reset],
    a [push] or a rebase pull. *)
Variable Q : GitLog -> GitLog -> Prop.
Hypothesis Q_refl : forall l, Q l l.
Hypothesis Q_trans : forall l1 l2 l3, Q l1 l2 -> Q l2 l3 -> Q l1 l3.
Hypothesis Q_exec : forall args log o,
  isResetArgs args = false -> isPushArgs args = false -> isRebaseArgs args = false ->
  Q log (log ++ [(args, o)]).

Definition Runs {A} (m : ST GitLog A) : Prop :=
  forall log r log', m log = (r, log') -> Q log log'.

Lemma Runs_ret {A} (a : A) : Runs (ret a).
Proof. intros log r log' H. inversion H. apply Q_refl. Qed.

Lemma Runs_throw {A} e : Runs (A := A) (throw e).
Proof. intros log r log' H. inversion H. apply Q_refl. Qed.

Lemma Runs_bind {A B} (m : ST GitLog A) (k : A -> ST GitLog B) :
  Runs m -> (forall a, Runs (k a)) -> Runs (bind m k).
Proof.
  intros Hm Hk log r log'. unfold bind. destruct (m log) as [[a|e] l1] eqn:E.
  - intros H. eapply Q_trans; [eapply Hm; exact E|eapply Hk; exact H].
  - intros H. inversion H; subst. eapply Hm. exact E.
Qed.

Lemma Runs_wrapErr {A} msg (m : ST GitLog A) : Runs m -> Runs (wrapErr msg m).
Proof.
  intros Hm log r log'. unfold wrapErr. destruct (m log) as [[a|e] l1] eqn:E;
    intros H; inversion H; subst; eapply Hm; exact E.
Qed.

Lemma Runs_attempt {A} (m : ST GitLog A) : Runs m -> Runs (attempt m).
Proof.
  intros Hm log r log'. unfold attempt. destruct (m log) as [r1 l1] eqn:E.
  intros H. inversion H; subst. eapply Hm. exact E.
Qed.

Lemma Runs_exec_with args :
  (forall log o, Q log (log ++ [(args, o)])) -> Runs (exec_git git args).
Proof. intros Hq log r log' H. inversion H. apply Hq. Qed.

Lemma Runs_run_with args :
  (forall log o, Q log (log ++ [(args, o)])) -> Runs (runGitCommand git args).
Proof.
  intros Hq log r log'. rewrite runGitCommand_eq. intros H. inversion H. apply Hq.
Qed.

Lemma Runs_exec args :
  isResetArgs args = false -> isPushArgs args = false -> isRebaseArgs args = false ->
  Runs (exec_git git args).
Proof. intros. apply Runs_exec_with. intros. apply Q_exec; assumption. Qed.

Lemma Runs_run args :
  isResetArgs args = false -> isPushArgs args = false -> isRebaseArgs args = false ->
  Runs (runGitCommand git args).
Proof. intros. apply Runs_run_with. intros. apply Q_exec; assumption. Qed.

Ltac runs :=
  repeat first
    [ apply Runs_bind; [|intros ?; cbv beta]
    | apply Runs_wrapErr
    | apply Runs_attempt
    | apply Runs_ret
    | apply Runs_throw
    | apply Runs_exec; reflexivity
    | match goal with |- Runs (if ?b then _ else _) => destruct b end
    | match goal with |- Runs (match ?x with _ => _ end) => destruct x end ].

Lemma Runs_getCurrentBranch : Runs (getCurrentBranch git).
Proof. unfold getCurrentBranch. runs. Qed.

Lemma Runs_isBehindRemote : Runs (isBehindRemote git).
Proof.
  unfold isBehindRemote. apply Runs_bind; [apply Runs_getCurrentBranch|]. intros b. runs.
Qed.

Lemma Runs_hasChangesToCommit : Runs (hasChangesToCommit git).
Proof. unfold hasChangesToCommit. runs. Qed.

Lemma Runs_resolveFiles files : Runs (resolveFiles git files).
Proof.
  induction files as [|file rest IH]; cbn [resolveFiles]; [apply Runs_ret|].
  apply Runs_bind; [|intros; exact IH].
  destruct (String.eqb file ""); [apply Runs_ret|].
  apply Runs_bind; [|intros]; apply Runs_wrapErr; apply Runs_run; reflexivity.
Qed.

Lemma Runs_resolveConflictsAutomatically : Runs (resolveConflictsAutomatically git).
Proof.
  unfold resolveConflictsAutomatically.
  apply Runs_bind; [apply Runs_exec; reflexivity|]. intros o. cbv beta.
  destruct (negb (succeeded o)); [apply Runs_throw|].
  destruct (Split _ _) as [|f rest]; [apply Runs_throw|].
  destruct f; [apply Runs_throw|];
    (apply Runs_bind; [apply Runs_resolveFiles|intros; apply Runs_wrapErr, Runs_run; reflexivity]).
Qed.

Lemma Runs_handlePullConflict_with e :
  (forall b, Runs (runGitCommand git (rebaseArgs b))) -> Runs (resetToRemote git) ->
  Runs (handlePullConflict git e).
Proof.
  intros Hrebase Hreset. unfold handlePullConflict.
  destruct (_ || _).
  - apply Runs_bind; [apply Runs_getCurrentBranch|]. intros b1.
    apply Runs_bind; [apply Runs_attempt, Runs_run; reflexivity|]. intros [?|?]; [apply Runs_ret|].
    apply Runs_bind; [apply Runs_getCurrentBranch|]. intros b2.
    apply Runs_bind; [apply Runs_attempt, Hrebase|]. intros [?|?]; [apply Runs_ret|].
    exact Hreset.
  - destruct (_ || _); [apply Runs_resolveConflictsAutomatically|apply Runs_throw].
Qed.

Lemma Runs_PullChanges_with :
  (forall e, Runs (handlePullConflict git e)) -> Runs (PullChanges git g).
Proof.
  intros Hh. unfold PullChanges.
  destruct (negb (IsEnabled g)); [apply Runs_ret|].
  apply Runs_bind; [apply Runs_wrapErr, Runs_run; reflexivity|]. intros _.
  apply Runs_bind; [apply Runs_wrapErr, Runs_isBehindRemote|]. intros behind.
  destruct (negb behind); [apply Runs_ret|].
  apply Runs_bind; [apply Runs_getCurrentBranch|]. intros b.
  apply Runs_bind; [apply Runs_attempt, Runs_run; reflexivity|]. intros [?|e]; [apply Runs_ret|].
  apply Hh.
Qed.

Lemma Runs_pushWithRetry_with :
  Runs (PullChanges git g) -> (forall b, Runs (runGitCommand git (pushArgs b))) ->
  Runs (pushWithRetry git g).
Proof.
  intros Hp Hpush. unfold pushWithRetry.
  apply Runs_bind; [apply Runs_getCurrentBranch|]. intros b1.
  apply Runs_bind; [apply Runs_attempt, Hpush|]. intros [?|e]; [apply Runs_ret|].
  destruct (_ || _); [|apply Runs_throw].
  apply Runs_bind; [apply Runs_attempt, Hp|]. intros [?|pe]; [|apply Runs_throw].
  apply Runs_bind; [apply Runs_getCurrentBranch|]. intros b2.
  apply Runs_bind; [apply Runs_attempt, Hpush|]. intros [?|?]; [apply Runs_ret|apply Runs_throw].
Qed.

Lemma Runs_SyncChanges_with message now :
  Runs (PullChanges git g) -> Runs (pushWithRetry git g) ->
  Runs (SyncChanges git g message now).
Proof.
  intros Hp Hpush. unfold SyncChanges.
  destruct (negb (IsEnabled g)); [apply Runs_ret|].
  apply Runs_bind; [apply Runs_attempt, Hp|]. intros _.
  apply Runs_bind; [apply Runs_wrapErr, Runs_run; reflexivity|]. intros _.
  apply Runs_bind; [apply Runs_wrapErr, Runs_hasChangesToCommit|]. intros has.
  destruct (negb has); [apply Runs_ret|].
  apply Runs_bind; [apply Runs_wrapErr, Runs_run; reflexivity|]. intros _.
  apply Runs_wrapErr, Hpush.
Qed.
End Runs.

(** *** The order of the reconciling strategies *)

Lemma snoc_split {X} (pre post l : list X) x e :
  pre ++ x :: post = l ++ [e] ->
  (post = [] /\ pre = l /\ x = e) \/
  (exists post0, post = post0 ++ [e] /\ l = pre ++ x :: post0).
Proof.
  induction post as [|y post0 _] using rev_ind; intros H.
  - left. apply app_inj_tail in H as [-> ->]. auto.
  - right. rewrite app_comm_cons, app_assoc in H. apply app_inj_tail in H as [H ->].
    eauto.
Qed.

Lemma guarded_snoc P ctx log args o :
  guarded P ctx log -> (P args = true -> ctx log) -> guarded P ctx (log ++ [(args, o)]).
Proof.
  intros Hg Hnew pre x post Heq Hp.
  destruct (snoc_split _ _ _ _ _ (eq_sym Heq)) as [(-> & -> & ->)|(post0 & -> & Hl)].
  - apply Hnew. exact Hp.
  - eapply Hg; eauto.
Qed.

Lemma guarded_nil P ctx : guarded P ctx [].
Proof. intros pre x post H. destruct pre; discriminate. Qed.

Definition ordered (log : GitLog) : Prop := reset_guarded log /\ rebase_guarded log.

Definition Keeps (log log' : GitLog) : Prop := ordered log -> ordered log'.

Lemma ordered_snoc log args o :
  ordered log ->
  (isResetArgs args = true -> reset_ctx log) ->
  (isRebaseArgs args = true -> rebase_ctx log) ->
  ordered (log ++ [(args, o)]).
Proof.
  intros [Hr Hb] H1 H2. split; apply guarded_snoc; assumption.
Qed.

Ltac ordered_steps :=
  repeat (apply ordered_snoc; [| intros Hc; cbn in Hc; discriminate | ..]).

Lemma Keeps_refl l : Keeps l l.
Proof. intros H. exact H. Qed.

Lemma Keeps_trans l1 l2 l3 : Keeps l1 l2 -> Keeps l2 l3 -> Keeps l1 l3.
Proof. unfold Keeps. auto. Qed.

Lemma Keeps_exec args log o :
  isResetArgs args = false -> isPushArgs args = false -> isRebaseArgs args = false ->
  Keeps log (log ++ [(args, o)]).
Proof.
  intros Hr _ Hb H. apply ordered_snoc; [exact H|congruence|congruence].
Qed.

Lemma Keeps_push b log o : Keeps log (log ++ [(pushArgs b, o)]).
Proof. intros H. apply ordered_snoc; [exact H|discriminate|discriminate]. Qed.

Lemma Keeps_handlePullConflict git e : Runs Keeps (handlePullConflict git e).
Proof.
  unfold handlePullConflict. destruct (_ || _).
  - intros log r log' H Hord.
    destruct (getCurrentBranch_eq git log) as [b1 Hb1].
    rewrite (bind_ok _ _ _ _ _ Hb1) in H.
    set (log1 := log ++ [(branchArgs, git log branchArgs)]) in H.
    rewrite (bind_ok _ _ _ _ _ (attempt_run_eq _ _ _)) in H.
    set (om := git log1 (mergeArgs b1)) in H.
    set (log2 := log1 ++ [(mergeArgs b1, om)]) in H.
    assert (Hord2 : ordered log2).
    { unfold log2, log1. apply ordered_snoc; [|discriminate|discriminate].
      apply ordered_snoc; [exact Hord|discriminate|discriminate]. }
    destruct (gitResult (mergeArgs b1) om) as [u|em] eqn:Em.
    { inversion H; subst. exact Hord2. }
    apply gitResult_Err in Em.
    destruct (getCurrentBranch_eq git log2) as [b2 Hb2].
    rewrite (bind_ok _ _ _ _ _ Hb2) in H.
    set (log3 := log2 ++ [(branchArgs, git log2 branchArgs)]) in H.
    rewrite (bind_ok _ _ _ _ _ (attempt_run_eq _ _ _)) in H.
    set (orb := git log3 (rebaseArgs b2)) in H.
    set (log4 := log3 ++ [(rebaseArgs b2, orb)]) in H.
    assert (Hord4 : ordered log4).
    { unfold log4, log3. apply ordered_snoc; [|discriminate|].
      - apply ordered_snoc; [exact Hord2|discriminate|discriminate].
      - intros _. exists log1, b1, om, (git log2 branchArgs). split; [|exact Em].
        unfold log2. rewrite <- app_assoc. reflexivity. }
    destruct (gitResult (rebaseArgs b2) orb) as [u|er] eqn:Er.
    { inversion H; subst. exact Hord4. }
    apply gitResult_Err in Er.
    unfold resetToRemote in H.
    destruct (getCurrentBranch_eq git log4) as [b3 Hb3].
    rewrite (bind_ok _ _ _ _ _ Hb3) in H.
    set (log5 := log4 ++ [(branchArgs, git log4 branchArgs)]) in H.
    unfold bind at 1, wrapErr at 1 in H. rewrite runGitCommand_eq in H.
    set (ofe := git log5 ["fetch"; "origin"]) in H.
    set (log6 := log5 ++ [(["fetch"; "origin"], ofe)]) in H.
    assert (Hord6 : ordered log6).
    { unfold log6, log5. apply ordered_snoc; [|discriminate|discriminate].
      apply ordered_snoc; [exact Hord4|discriminate|discriminate]. }
    destruct (gitResult ["fetch"; "origin"] ofe) as [u|ef].
    + cbv beta in H. unfold wrapErr in H. rewrite runGitCommand_eq in H.
      destruct (gitResult _ _); inversion H; subst;
        (apply ordered_snoc; [exact Hord6| |discriminate]);
        intros _; exists log1, b1, om, (git log2 branchArgs), b2, orb,
          (git log4 branchArgs), ofe;
        (split; [|split; assumption]);
        unfold log6, log5, log4, log3, log2; rewrite <- !app_assoc; reflexivity.
    + inversion H; subst. exact Hord6.
  - destruct (_ || _); [|apply Runs_throw; exact Keeps_refl].
    apply Runs_resolveConflictsAutomatically; [exact Keeps_refl|exact Keeps_trans|].
    intros. apply Keeps_exec; assumption.
Qed.

Lemma Keeps_PullChanges git g : Runs Keeps (PullChanges git g).
Proof.
  apply Runs_PullChanges_with; [exact Keeps_refl|exact Keeps_trans|exact Keeps_exec|].
  apply Keeps_handlePullConflict.
Qed.

Lemma Keeps_SyncChanges git g message now : Runs Keeps (SyncChanges git g message now).
Proof.
  apply Runs_SyncChanges_with; [exact Keeps_refl|exact Keeps_trans|exact Keeps_exec|
                                apply Keeps_PullChanges|].
  apply Runs_pushWithRetry_with; [exact Keeps_refl|exact Keeps_trans|exact Keeps_exec|
                                  apply Keeps_PullChanges|].
  intros b. apply Runs_run_with. intros. apply Keeps_push.
Qed.

(** C6: during pull reconciliation the strategies run in the fixed
    order merge preferring local, rebase, hard reset. Whatever the
    repository answers, if every [reset] of the log so far came right
    after a failed merge pull and a failed rebase pull (with only the
    branch queries and the fetch between them), and every rebase pull
    right after a failed merge pull, the same holds after
    [handlePullConflict], [PullChanges] or [SyncChanges]: a hard reset is
    never run unless the merge and then the rebase have both failed. *)
Theorem reconcile_order (git : GitLog -> list string -> outcome) (g : GitSync)
  (message now : string) (log log' : GitLog) (r : result unit) :
  reset_guarded log -> rebase_guarded log ->
  (exists e, handlePullConflict git e log = (r, log')) \/
  PullChanges git g log = (r, log') \/
  SyncChanges git g message now log = (r, log') ->
  reset_guarded log' /\ rebase_guarded log'.
Proof.
  intros Hr Hb [[e H]|[H|H]].
  - exact (Keeps_handlePullConflict git e log r log' H (conj Hr Hb)).
  - exact (Keeps_PullChanges git g log r log' H (conj Hr Hb)).
  - exact (Keeps_SyncChanges git g message now log r log' H (conj Hr Hb)).
Qed.

Lemma reconcile_order_witness :
  existsb (fun e => isResetArgs e.1) (PullChanges git_divergent g_on []).2 = true /\
  reset_guarded (PullChanges git_divergent g_on []).2 /\
  rebase_guarded (PullChanges git_divergent g_on []).2.
Proof.
  split; [vm_compute; reflexivity|].
  apply (reconcile_order git_divergent g_on "" "" [] _ (PullChanges git_divergent g_on []).1);
    [apply guarded_nil|apply guarded_nil|].
  right. left. apply surjective_pairing.
Defined.

(** *** The push retry *)

Lemma pushCount_app l1 l2 : pushCount (l1 ++ l2) = (pushCount l1 + pushCount l2)%nat.
Proof. unfold pushCount. rewrite List.filter_app, List.length_app. reflexivity. Qed.

(** The log only grows, by entries that are not pushes. *)
Definition Adds (log log' : GitLog) : Prop :=
  exists new, log' = log ++ new /\ pushCount new = 0%nat.

Lemma Adds_refl l : Adds l l.
Proof. exists []. rewrite app_nil_r. auto. Qed.

Lemma Adds_trans l1 l2 l3 : Adds l1 l2 -> Adds l2 l3 -> Adds l1 l3.
Proof.
  intros (n1 & -> & H1) (n2 & -> & H2). exists (n1 ++ n2).
  rewrite pushCount_app, H1, H2, app_assoc. split; reflexivity.
Qed.

Lemma Adds_snoc args log o : isPushArgs args = false -> Adds log (log ++ [(args, o)]).
Proof. intros Hp. exists [(args, o)]. split; [reflexivity|]. unfold pushCount. cbn. rewrite Hp. reflexivity. Qed.

Lemma Adds_exec args log o :
  isResetArgs args = false -> isPushArgs args = false -> isRebaseArgs args = false ->
  Adds log (log ++ [(args, o)]).
Proof. intros _ Hp _. apply Adds_snoc. exact Hp. Qed.

Lemma Adds_PullChanges git g : Runs Adds (PullChanges git g).
Proof.
  apply Runs_PullChanges_with; [exact Adds_refl|exact Adds_trans|exact Adds_exec|].
  intros e. apply Runs_handlePullConflict_with; [exact Adds_refl|exact Adds_trans|exact Adds_exec| |].
  - intros b. apply Runs_run_with. intros. apply Adds_snoc. reflexivity.
  - unfold resetToRemote.
    apply Runs_bind; [exact Adds_trans|apply Runs_getCurrentBranch;
                      [exact Adds_refl|exact Adds_trans|exact Adds_exec]|].
    intros b. apply Runs_bind; [exact Adds_trans| |intros _];
      (apply Runs_wrapErr, Runs_run_with; intros; apply Adds_snoc; reflexivity).
Qed.

(** [SyncChanges] fails either before any push, or with the error of
    the push step [pushWithRetry] behind its prefix. *)
Lemma SyncChanges_push_error git g message now log e log' :
  SyncChanges git g message now log = (Err e, log') ->
  (exists new, log' = log ++ new /\ pushCount new = 0%nat) \/
  (exists lc pe, pushWithRetry git g lc = (Err pe, log') /\
                 e = "committed locally but failed to push: " +:+ pe).
Proof.
  intros H. unfold SyncChanges in H.
  destruct (negb (IsEnabled g)); [inversion H|].
  destruct (PullChanges git g log) as [pr l1] eqn:Ep.
  destruct (Adds_PullChanges git g _ _ _ Ep) as (n1 & -> & Hn1).
  assert (Ha : attempt (PullChanges git g) log = (Ok pr, log ++ n1))
    by (unfold attempt; rewrite Ep; reflexivity).
  rewrite (bind_ok _ _ _ _ _ Ha) in H.
  pose proof (runGitCommand_eq git ["add"; "-A"] (log ++ n1)) as Er.
  set (oa := git (log ++ n1) ["add"; "-A"]) in Er.
  destruct (gitResult ["add"; "-A"] oa) as [u|e0] eqn:Eadd.
  2:{ rewrite (bind_err _ _ _ _ _ (wrapErr_err _ _ _ _ _ Er)) in H. inversion H; subst.
      left. exists (n1 ++ [(["add"; "-A"], oa)]).
      split; [rewrite app_assoc; reflexivity|]. rewrite pushCount_app, Hn1. reflexivity. }
  rewrite (bind_ok _ _ _ _ _ (wrapErr_ok _ _ _ _ _ Er)) in H.
  assert (HA : Runs Adds (hasChangesToCommit git))
    by (apply Runs_hasChangesToCommit; [exact Adds_refl|exact Adds_trans|exact Adds_exec]).
  destruct (hasChangesToCommit git ((log ++ n1) ++ [(["add"; "-A"], oa)])) as [[has|e0] l3] eqn:Eh.
  2:{ destruct (HA _ _ _ Eh) as (n3 & -> & Hn3).
      rewrite (bind_err _ _ _ _ _ (wrapErr_err _ _ _ _ _ Eh)) in H. inversion H; subst.
      left. exists (n1 ++ [(["add"; "-A"], oa)] ++ n3).
      split; [rewrite <- !app_assoc; reflexivity|]. rewrite !pushCount_app, Hn1, Hn3. reflexivity. }
  destruct (HA _ _ _ Eh) as (n3 & -> & Hn3).
  rewrite (bind_ok _ _ _ _ _ (wrapErr_ok _ _ _ _ _ Eh)) in H.
  destruct (negb has); [inversion H|].
  set (L3 := ((log ++ n1) ++ [(["add"; "-A"], oa)]) ++ n3) in H.
  pose proof (runGitCommand_eq git ["commit"; "-m"; message +:+ " - " +:+ now] L3) as Ec.
  set (oc := git L3 ["commit"; "-m"; message +:+ " - " +:+ now]) in Ec.
  destruct (gitResult ["commit"; "-m"; message +:+ " - " +:+ now] oc) as [u'|e0] eqn:Ecm.
  2:{ rewrite (bind_err _ _ _ _ _ (wrapErr_err _ _ _ _ _ Ec)) in H. inversion H; subst.
      left. exists (n1 ++ [(["add"; "-A"], oa)] ++ n3 ++ [(["commit"; "-m"; message +:+ " - " +:+ now], oc)]).
      split; [unfold L3; rewrite <- !app_assoc; reflexivity|].
      rewrite !pushCount_app, Hn1, Hn3. reflexivity. }
  rewrite (bind_ok _ _ _ _ _ (wrapErr_ok _ _ _ _ _ Ec)) in H.
  unfold wrapErr in H.
  destruct (pushWithRetry git g _) as [[u2|pe] l5] eqn:Epw; [inversion H|].
  inversion H; subst. right. eexists _, pe. split; [exact Epw|reflexivity].
Qed.

(** After a first push rejected as non-fast-forward, [pushWithRetry]
    runs [PullChanges], which pushes nothing. If that
    pull fails there is no second push and the error is
    "push failed and pull failed: push=..., pull=...". If it succeeds
    there is exactly one more push: the result is success if it
    succeeds, else the distinct error "push failed after pull:
    original=..., retry=...". There is never a third push; a push error
    that is not a rejection is returned as it is. *)
Lemma pushWithRetry_outcome git g log r log' :
  pushWithRetry git g log = (r, log') -> push_retry_outcome git g log r log'.
Proof.
  intros H. unfold pushWithRetry in H.
  destruct (getCurrentBranch_eq git log) as [b1 Hb1].
  rewrite (bind_ok _ _ _ _ _ Hb1) in H.
  rewrite (bind_ok _ _ _ _ _ (attempt_run_eq _ _ _)) in H.
  set (ob1 := git log branchArgs) in H.
  set (o1 := git (log ++ [(branchArgs, ob1)]) (pushArgs b1)) in H.
  rewrite <- app_assoc in H. cbn [app] in H.
  exists b1, ob1, o1. cbv zeta.
  set (log1 := log ++ [(branchArgs, ob1); (pushArgs b1, o1)]) in H |- *.
  destruct (gitResult (pushArgs b1) o1) as [u|e1].
  { inversion H; subst. exists []. rewrite app_nil_r. auto. }
  destruct (Contains e1 "rejected" || Contains e1 "non-fast-forward").
  2:{ inversion H; subst. exists []. rewrite app_nil_r. auto. }
  unfold bind at 1, attempt at 1 in H.
  destruct (PullChanges git g log1) as [pr plog] eqn:Ep.
  destruct (Adds_PullChanges git g _ _ _ Ep) as (prest & -> & Hp0).
  destruct pr as [u|pe].
  - destruct (getCurrentBranch_eq git (log1 ++ prest)) as [b2 Hb2].
    rewrite (bind_ok _ _ _ _ _ Hb2) in H.
    rewrite (bind_ok _ _ _ _ _ (attempt_run_eq _ _ _)) in H.
    set (ob2 := git (log1 ++ prest) branchArgs) in H.
    set (o2 := git ((log1 ++ prest) ++ [(branchArgs, ob2)]) (pushArgs b2)) in H.
    exists (prest ++ [(branchArgs, ob2); (pushArgs b2, o2)]).
    split; [|exists (Ok u), prest; split; [reflexivity|split; [exact Hp0|]]].
    + destruct (gitResult (pushArgs b2) o2); inversion H; subst;
        rewrite <- !app_assoc; reflexivity.
    + exists b2, ob2, o2. split; [reflexivity|].
      destruct (gitResult (pushArgs b2) o2); inversion H; reflexivity.
  - inversion H; subst. exists prest. split; [reflexivity|].
    exists (Err pe), prest. auto.
Qed.

(** C7 (amended): [pushWithRetry] behaves as [push_retry_outcome]
    describes (a rejected first push is followed by a pull; a failed
    pull means no second push and the error "push failed and pull
    failed: ..."; otherwise exactly one more push, and on its failure
    the distinct error "push failed after pull: ..."; never a third
    push; any other push error is returned as it is). And [SyncChanges]
    returns any error of that push step behind the prefix "committed
    locally but failed to push: "; its other errors come before any
    push. *)
Theorem pushWithRetry_retries_once git g :
  (forall log r log', pushWithRetry git g log = (r, log') -> push_retry_outcome git g log r log') /\
  (forall message now log e log',
     SyncChanges git g message now log = (Err e, log') ->
     (exists new, log' = log ++ new /\ pushCount new = 0%nat) \/
     (exists lc pe, pushWithRetry git g lc = (Err pe, log') /\
                    e = "committed locally but failed to push: " +:+ pe)).
Proof.
  split; [exact (pushWithRetry_outcome git g)|exact (SyncChanges_push_error git g)].
Qed.

Lemma pushWithRetry_retries_once_witness :
  (pushWithRetry git_retry g_on []).1 = Ok tt /\
  pushCount (pushWithRetry git_retry g_on []).2 = 2%nat /\
  push_retry_outcome git_retry g_on [] (pushWithRetry git_retry g_on []).1
    (pushWithRetry git_retry g_on []).2 /\
  exists e, (SyncChanges git_rejecting g_on "edit" "2026-10-16" []).1 = Err e /\
  ((exists new, (SyncChanges git_rejecting g_on "edit" "2026-10-16" []).2 = [] ++ new /\
                pushCount new = 0%nat) \/
   (exists lc pe, pushWithRetry git_rejecting g_on lc =
                    (Err pe, (SyncChanges git_rejecting g_on "edit" "2026-10-16" []).2) /\
                  e = "committed locally but failed to push: " +:+ pe)).
Proof.
  split; [vm_compute; reflexivity|]. split; [vm_compute; reflexivity|]. split.
  - apply (proj1 (pushWithRetry_retries_once git_retry g_on)). apply surjective_pairing.
  - destruct (SyncChanges git_rejecting g_on "edit" "2026-10-16" []) as [r l] eqn:E.
    destruct r as [u|e]; [exfalso; vm_compute in E; discriminate|].
    exists e. split; [reflexivity|].
    exact (proj2 (pushWithRetry_retries_once git_rejecting g_on) _ _ _ _ _ E).
Defined.

(** C7, as stated, fails: the first push is rejected as non-fast-forward
    and the pull after it fails (the fetch is refused), so the sync
    returns "push failed and pull failed" without retrying the push. *)
Lemma sync_rejected_push_not_retried :
  pushCount (SyncChanges git_rejecting g_on "edit" "2026-10-16" []).2 = 1%nat /\
  (SyncChanges git_rejecting g_on "edit" "2026-10-16" []).1 =
    Err ("committed locally but failed to push: push failed and pull failed: push=" +:+
         "git push origin main failed: ! [rejected]        main -> main (non-fast-forward)" +:+
         ", pull=failed to fetch from remote: git fetch origin failed: fatal: unable to access remote").
Proof. split; vm_compute; reflexivity. Qed.

(* ================================================================== *)
(** * Further properties of the code *)

(* ------------------------------------------------------------------ *)
(** ** Service: filtering, tags, search *)

Lemma hasTagAt_spec h tag l :
  hasTagAt h tag l = true <-> exists p, h !! l = Some p /\ In tag p.(Tags).
Proof.
  unfold hasTagAt, hasTag. destruct (h !! l) as [p|]; split.
  - intros H. apply existsb_exists in H as (t & Ht & Heq). apply String.eqb_eq in Heq.
    subst. eauto.
  - intros (q & Hq & Ht). inversion Hq; subst. apply existsb_exists.
    exists tag. split; [exact Ht|]. apply String.eqb_refl.
  - discriminate.
  - intros (q & Hq & _). discriminate.
Qed.

Lemma ListPrompts_active s act s1 l :
  ListPrompts s = (Ok act, s1) -> l ∈ act -> isArchivedAt s1.(svc_heap) l = false /\ l ∈ s1.(svc_cache).
Proof.
  intros H Hl. destruct (ListPrompts_inv _ _ _ H) as [_ ->].
  apply list_elem_of_filter in Hl. exact Hl.
Qed.

Lemma active_not_archive h l p :
  isArchivedAt h l = false -> h !! l = Some p -> ~ In "archive" p.(Tags).
Proof.
  unfold isArchivedAt. intros Ha Hp Hin. rewrite Hp in Ha.
  apply isArchived_In in Hin. congruence.
Qed.

(** [FilterPromptsByTag tag] keeps, in order, the active prompts whose
    tags include [tag] (exact comparison); archived prompts are never
    returned, so filtering by the tag ["archive"] always gives the
    empty list. *)
Theorem FilterPromptsByTag_active tag s r s1 :
  FilterPromptsByTag tag s = (Ok r, s1) ->
  exists act,
    ListPrompts s = (Ok act, s1) /\
    r = filter (fun l => hasTagAt s1.(svc_heap) tag l = true) act /\
    (forall l, l ∈ r <-> l ∈ act /\ exists p, s1.(svc_heap) !! l = Some p /\ In tag p.(Tags)) /\
    (tag = "archive" -> r = []).
Proof.
  intros H. unfold FilterPromptsByTag in H. bind_step H. inversion H; subst.
  exists a. split; [exact Hm|]. split; [reflexivity|]. split.
  - intros l. rewrite list_elem_of_filter, hasTagAt_spec. tauto.
  - intros ->. apply elem_of_nil_inv. intros l Hl.
    apply list_elem_of_filter in Hl as [Ht Hl].
    apply hasTagAt_spec in Ht as (p & Hp & Hin).
    destruct (ListPrompts_active _ _ _ _ Hm Hl) as [Ha _].
    exact (active_not_archive _ _ _ Ha Hp Hin).
Qed.

Lemma FilterPromptsByTag_active_witness :
  (FilterPromptsByTag "x" (UpdatePrompt 9 1 (svc_a "1.0.0" "")).2).1 = Ok [4%positive] /\
  exists act,
    ListPrompts (UpdatePrompt 9 1 (svc_a "1.0.0" "")).2 =
      (Ok act, (FilterPromptsByTag "x" (UpdatePrompt 9 1 (svc_a "1.0.0" "")).2).2) /\
    [4%positive] = filter (fun l => hasTagAt
        (FilterPromptsByTag "x" (UpdatePrompt 9 1 (svc_a "1.0.0" "")).2).2.(svc_heap) "x" l = true) act /\
    (forall l, l ∈ [4%positive] <-> l ∈ act /\ exists p,
        (FilterPromptsByTag "x" (UpdatePrompt 9 1 (svc_a "1.0.0" "")).2).2.(svc_heap) !! l = Some p /\
        In "x" p.(Tags)) /\
    ("x" = "archive" -> [4%positive] = []).
Proof.
  assert (E : FilterPromptsByTag "x" (UpdatePrompt 9 1 (svc_a "1.0.0" "")).2 =
              (Ok [4%positive], (FilterPromptsByTag "x" (UpdatePrompt 9 1 (svc_a "1.0.0" "")).2).2))
    by (vm_compute; reflexivity).
  split; [rewrite E; reflexivity|].
  exact (FilterPromptsByTag_active "x" _ _ _ E).
Defined.

Lemma tag_fold_elem (t : string) (m : gset string) (ts : list string) :
  t ∈ foldl (fun m tag => {[tag]} ∪ m) m ts <-> t ∈ m \/ In t ts.
Proof.
  revert m. induction ts as [|x ts IH]; intros m; cbn.
  - tauto.
  - rewrite IH. rewrite elem_of_union, elem_of_singleton. intuition congruence.
Qed.

Lemma tags_fold_elem (h : gmap loc Prompt) (t : string) (m : gset string) (ls : list loc) :
  t ∈ foldl (fun (m : gset string) l =>
               match h !! l with
               | Some p => foldl (fun m tag => {[tag]} ∪ m) m p.(Tags)
               | None => m
               end) m ls <->
  t ∈ m \/ exists l p, l ∈ ls /\ h !! l = Some p /\ In t p.(Tags).
Proof.
  revert m. induction ls as [|l ls IH]; intros m; cbn.
  - split; [tauto|]. intros [H|(l & p & Hl & _)]; [exact H|]. inversion Hl.
  - rewrite IH. destruct (h !! l) as [p|] eqn:Hp.
    + rewrite tag_fold_elem. split.
      * intros [[H|H]|(l' & p' & Hl' & Hp' & Ht)]; [tauto| |].
        -- right. exists l, p. split; [left|]; auto.
        -- right. exists l', p'. split; [right|]; auto.
      * intros [H|(l' & p' & Hl' & Hp' & Ht)]; [tauto|].
        apply elem_of_cons in Hl' as [->|Hl'].
        -- rewrite Hp in Hp'. injection Hp' as <-. tauto.
        -- right. exists l', p'. auto.
    + split.
      * intros [H|(l' & p' & Hl' & Hp' & Ht)]; [tauto|].
        right. exists l', p'. split; [right|]; auto.
      * intros [H|(l' & p' & Hl' & Hp' & Ht)]; [tauto|].
        apply elem_of_cons in Hl' as [->|Hl']; [congruence|].
        right. exists l', p'. auto.
Qed.

(** [GetAllTags] lists each tag once, and exactly the tags of the
    active prompts: a tag carried only by archived prompts is not
    listed, and ["archive"] never is. *)
Theorem GetAllTags_active s tags s1 :
  GetAllTags s = (Ok tags, s1) ->
  exists act,
    ListPrompts s = (Ok act, s1) /\
    NoDup tags /\
    (forall t, t ∈ tags <-> exists l p, l ∈ act /\ s1.(svc_heap) !! l = Some p /\ In t p.(Tags)) /\
    "archive" ∉ tags.
Proof.
  intros H. unfold GetAllTags in H. bind_step H. inversion H; subst.
  exists a. split; [exact Hm|]. split; [apply NoDup_elements|].
  assert (Hmem : forall t, t ∈ elements (foldl (fun (m : gset string) l =>
               match s1.(svc_heap) !! l with
               | Some p => foldl (fun m tag => {[tag]} ∪ m) m p.(Tags)
               | None => m
               end) ∅ a) <->
          exists l p, l ∈ a /\ s1.(svc_heap) !! l = Some p /\ In t p.(Tags)).
  { intros t. rewrite elem_of_elements, tags_fold_elem. set_solver. }
  split; [exact Hmem|].
  rewrite Hmem. intros (l & p & Hl & Hp & Hin).
  destruct (ListPrompts_active _ _ _ _ Hm Hl) as [Ha _].
  exact (active_not_archive _ _ _ Ha Hp Hin).
Qed.

Lemma GetAllTags_active_witness :
  (GetAllTags (UpdatePrompt 9 1 (svc_a "1.0.0" "")).2).1 = Ok ["x"] /\
  exists act,
    ListPrompts (UpdatePrompt 9 1 (svc_a "1.0.0" "")).2 =
      (Ok act, (GetAllTags (UpdatePrompt 9 1 (svc_a "1.0.0" "")).2).2) /\
    NoDup ["x"] /\
    (forall t, t ∈ ["x"] <-> exists l p, l ∈ act /\
       (GetAllTags (UpdatePrompt 9 1 (svc_a "1.0.0" "")).2).2.(svc_heap) !! l = Some p /\
       In t p.(Tags)) /\
    "archive" ∉ ["x"].
Proof.
  assert (E : GetAllTags (UpdatePrompt 9 1 (svc_a "1.0.0" "")).2 =
              (Ok ["x"], (GetAllTags (UpdatePrompt 9 1 (svc_a "1.0.0" "")).2).2))
    by (vm_compute; reflexivity).
  split; [rewrite E; reflexivity|].
  exact (GetAllTags_active _ _ _ E).
Defined.

(** Whatever the fuzzy matcher returns, [SearchPrompts] only returns
    active prompts of the cache: never an archived one. *)
Theorem SearchPrompts_only_active fuzzyFind query s r s1 :
  SearchPrompts fuzzyFind query s = (Ok r, s1) ->
  exists act,
    ListPrompts s = (Ok act, s1) /\
    (forall l, l ∈ r -> l ∈ act /\ l ∈ s1.(svc_cache) /\ ~ archivedAt s1.(svc_heap) l).
Proof.
  intros H. unfold SearchPrompts in H. bind_step H.
  assert (Hs : st = s1) by (destruct (String.eqb query ""); inversion H; reflexivity).
  subst st.
  exists a. split; [exact Hm|]. intros l Hl.
  assert (Hla : l ∈ a).
  { destruct (String.eqb query "").
    - inversion H; subst. exact Hl.
    - inversion H; subst. apply list_elem_of_omap in Hl as (i & _ & Hi).
      eapply list_elem_of_lookup_2. exact Hi. }
  destruct (ListPrompts_active _ _ _ _ Hm Hla) as [Ha Hc].
  split; [exact Hla|]. split; [exact Hc|].
  intros Hx. apply isArchivedAt_spec in Hx. congruence.
Qed.

Lemma SearchPrompts_only_active_witness :
  (SearchPrompts (fun _ _ => [0%nat]) "a" (svc_a "1.0.0" "")).1 = Ok [2%positive] /\
  exists act,
    ListPrompts (svc_a "1.0.0" "") =
      (Ok act, (SearchPrompts (fun _ _ => [0%nat]) "a" (svc_a "1.0.0" "")).2) /\
    (forall l, l ∈ [2%positive] -> l ∈ act /\
       l ∈ (SearchPrompts (fun _ _ => [0%nat]) "a" (svc_a "1.0.0" "")).2.(svc_cache) /\
       ~ archivedAt (SearchPrompts (fun _ _ => [0%nat]) "a" (svc_a "1.0.0" "")).2.(svc_heap) l).
Proof.
  assert (E : SearchPrompts (fun _ _ => [0%nat]) "a" (svc_a "1.0.0" "") =
              (Ok [2%positive], (SearchPrompts (fun _ _ => [0%nat]) "a" (svc_a "1.0.0" "")).2))
    by (vm_compute; reflexivity).
  split; [rewrite E; reflexivity|].
  exact (SearchPrompts_only_active _ _ _ _ _ E).
Defined.

(* ------------------------------------------------------------------ *)
(** ** Service: creating, deleting, saving *)

Lemma CreatePrompt_ok_inv now p s s' :
  CreatePrompt now p s = (Ok tt, s') ->
  exists inc,
    s.(svc_heap) !! p = Some inc /\
    s'.(svc_heap) !! p = Some (createdCopy now inc) /\
    s'.(svc_fs).(fs_files) =
      <[ (createdCopy now inc).(FilePath) := serializePrompt (createdCopy now inc) ]>
        s.(svc_fs).(fs_files).
Proof.
  intros H. unfold CreatePrompt in H.
  bind_as H u1 s1 Hm1. apply modify_inv in Hm1 as (inc & Hinc & ->).
  bind_as H u2 s2 Hm2. apply modify_inv in Hm2 as (x2 & Hx2 & ->).
  svc_simpl in Hx2. rewrite lookup_insert_eq in Hx2. injection Hx2 as <-.
  bind_as H cur s3 Hm3. apply deref_inv in Hm3 as [Hc ->].
  svc_simpl in Hc. rewrite lookup_insert_eq in Hc. injection Hc as <-.
  bind_as H u4 s4 Hm4.
  assert (Hs4 : s4.(svc_heap) !! p = Some (createdCopy now inc) /\ s4.(svc_fs) = s.(svc_fs)).
  { unfold createdCopy. cbn [FilePath ID set_UpdatedAt set_CreatedAt] in Hm4 |- *.
    destruct (String.eqb (FilePath inc) "").
    - apply modify_inv in Hm4 as (x & Hx & ->). svc_simpl in Hx; svc_simpl.
      rewrite lookup_insert_eq in Hx. injection Hx as <-.
      rewrite lookup_insert_eq. split; reflexivity.
    - apply ret_inv in Hm4 as [_ ->]. svc_simpl. rewrite lookup_insert_eq.
      split; reflexivity. }
  destruct Hs4 as [Hp4 Hf4].
  bind_as H q s5 Hm5. apply deref_inv in Hm5 as [Hq ->].
  rewrite Hp4 in Hq. injection Hq as <-.
  bind_as H u6 s6 Hm6. apply storageSave_inv in Hm6 as (fs' & Hsave & ->).
  destruct (Frames_loadPrompts _ _ _ H) as (_ & Hf & Hh).
  exists inc. split; [exact Hinc|]. split.
  - eapply lookup_weaken; [|exact Hh]. exact Hp4.
  - rewrite Hf. svc_simpl. rewrite (Storage_SavePrompt_files _ _ _ _ Hsave), Hf4. reflexivity.
Qed.

(** A successful [CreatePrompt] of a prompt object that has no path
    stamps it with the current time as both creation and update time,
    gives it the path [prompts/<id>.md], keeps its version and other
    fields, and writes exactly that one file. The id has no [/], so
    [filepath.Join("prompts", id + ".md")] is that path unchanged by
    [filepath.Clean]. *)
Theorem CreatePrompt_writes now p s s' inc :
  s.(svc_heap) !! p = Some inc ->
  inc.(FilePath) = "" ->
  Contains inc.(ID) "/" = false ->
  CreatePrompt now p s = (Ok tt, s') ->
  s'.(svc_heap) !! p = Some (createdCopy now inc) /\
  (createdCopy now inc).(FilePath) = "prompts/" +:+ inc.(ID) +:+ ".md" /\
  (createdCopy now inc).(CreatedAt) = now /\ (createdCopy now inc).(UpdatedAt) = now /\
  (createdCopy now inc).(Version) = inc.(Version) /\
  s'.(svc_fs).(fs_files) =
    <[ (createdCopy now inc).(FilePath) := serializePrompt (createdCopy now inc) ]>
      s.(svc_fs).(fs_files).
Proof.
  intros Hinc Hfp _ H. destruct (CreatePrompt_ok_inv _ _ _ _ H) as (inc' & H1 & H2 & H3).
  rewrite Hinc in H1. injection H1 as E. subst inc'.
  split; [exact H2|]. split; [|split; [reflexivity|split; [reflexivity|split; [reflexivity|exact H3]]]].
  unfold createdCopy. cbn [FilePath set_FilePath]. rewrite Hfp. reflexivity.
Qed.

Lemma CreatePrompt_writes_witness :
  svc_b.(svc_heap) !! 1%positive = Some incoming_b /\
  incoming_b.(FilePath) = "" /\ Contains incoming_b.(ID) "/" = false /\
  (CreatePrompt 5 1 svc_b).1 = Ok tt /\
  (CreatePrompt 5 1 svc_b).2.(svc_heap) !! 1%positive = Some (createdCopy 5 incoming_b) /\
  (createdCopy 5 incoming_b).(FilePath) = "prompts/" +:+ incoming_b.(ID) +:+ ".md" /\
  (createdCopy 5 incoming_b).(CreatedAt) = 5 /\ (createdCopy 5 incoming_b).(UpdatedAt) = 5 /\
  (createdCopy 5 incoming_b).(Version) = incoming_b.(Version) /\
  (CreatePrompt 5 1 svc_b).2.(svc_fs).(fs_files) =
    <[ (createdCopy 5 incoming_b).(FilePath) := serializePrompt (createdCopy 5 incoming_b) ]>
      svc_b.(svc_fs).(fs_files).
Proof.
  assert (H1 : svc_b.(svc_heap) !! 1%positive = Some incoming_b) by reflexivity.
  assert (H2 : incoming_b.(FilePath) = "") by reflexivity.
  assert (H3 : Contains incoming_b.(ID) "/" = false) by (vm_compute; reflexivity).
  assert (E : CreatePrompt 5 1 svc_b = (Ok tt, (CreatePrompt 5 1 svc_b).2))
    by (vm_compute; reflexivity).
  split; [exact H1|]. split; [exact H2|]. split; [exact H3|]. split; [rewrite E; reflexivity|].
  exact (CreatePrompt_writes _ _ _ _ _ H1 H2 H3 E).
Defined.

Lemma storageDelete_inv q s u s' :
  storageDelete q s = (Ok u, s') ->
  exists fs', Storage_DeletePrompt s.(svc_root) s.(svc_fs) q = Ok fs' /\ s' = set_fs fs' s.
Proof. unfold storageDelete. destruct (Storage_DeletePrompt _ _ _); intros H; inversion H; eauto. Qed.

Lemma Storage_DeletePrompt_files root fs q fs' :
  Storage_DeletePrompt root fs q = Ok fs' ->
  fs'.(fs_files) = delete q.(FilePath) fs.(fs_files).
Proof.
  unfold Storage_DeletePrompt. destruct (fs_files fs !! FilePath q) eqn:E.
  - intros H. inversion H. reflexivity.
  - destruct (decide _); [|discriminate]. destruct (_ || _); [discriminate|].
    intros H. inversion H; subst. cbn. symmetry. apply delete_id. exact E.
Qed.

(** A successful [DeletePrompt id] removes the file of the active prompt
    [GetPrompt id] finds, and no other file: archived copies of the
    prompt stay in the store. *)
Theorem DeletePrompt_removes_file id s s' :
  DeletePrompt id s = (Ok tt, s') ->
  exists l s1 p,
    GetPrompt id s = (Ok l, s1) /\
    s1.(svc_heap) !! l = Some p /\ p.(ID) = id /\ ~ In "archive" p.(Tags) /\
    s'.(svc_fs).(fs_files) = delete p.(FilePath) s.(svc_fs).(fs_files).
Proof.
  intros H. unfold DeletePrompt in H.
  bind_as H l s1 HG. bind_as H p s2 Hd. apply deref_inv in Hd as [Hp ->].
  bind_as H u s3 Hdel. apply wrapErr_ok_inv, storageDelete_inv in Hdel as (fs' & Hdel & ->).
  destruct (Frames_GetPrompt _ _ _ _ HG) as (_ & Hf1 & _).
  destruct (Frames_loadPrompts _ _ _ H) as (_ & Hf & _).
  destruct (GetPrompt_inv _ _ _ _ HG) as (act & HL & Hfind).
  destruct (findByID_Some _ _ _ _ Hfind) as (Hl & p' & Hp' & Hid).
  rewrite Hp in Hp'. injection Hp' as <-.
  destruct (ListPrompts_active _ _ _ _ HL Hl) as [Ha _].
  exists l, s1, p. repeat split; auto.
  - exact (active_not_archive _ _ _ Ha Hp).
  - rewrite Hf. svc_simpl. rewrite (Storage_DeletePrompt_files _ _ _ _ Hdel), Hf1. reflexivity.
Qed.

Lemma DeletePrompt_removes_file_witness :
  (DeletePrompt "a" (svc_a "1.0.0" "")).1 = Ok tt /\
  exists l s1 p,
    GetPrompt "a" (svc_a "1.0.0" "") = (Ok l, s1) /\
    s1.(svc_heap) !! l = Some p /\ p.(ID) = "a" /\ ~ In "archive" p.(Tags) /\
    (DeletePrompt "a" (svc_a "1.0.0" "")).2.(svc_fs).(fs_files) =
      delete p.(FilePath) (svc_a "1.0.0" "").(svc_fs).(fs_files).
Proof.
  assert (E : DeletePrompt "a" (svc_a "1.0.0" "") = (Ok tt, (DeletePrompt "a" (svc_a "1.0.0" "")).2))
    by (vm_compute; reflexivity).
  split; [rewrite E; reflexivity|].
  exact (DeletePrompt_removes_file _ _ _ E).
Defined.

(** When no active prompt carries the id of the prompt object,
    [SavePrompt] creates it: the same times, path and single file write
    as [CreatePrompt], no archived copy, and the version kept. The
    object has no path and its id no [/], so the path
    [prompts/<id>.md] is the one [filepath.Join] gives. *)
Theorem SavePrompt_new_creates now p s inc e s1 s' :
  s.(svc_heap) !! p = Some inc ->
  inc.(FilePath) = "" ->
  Contains inc.(ID) "/" = false ->
  GetPrompt inc.(ID) s = (Err e, s1) ->
  SavePrompt now p s = (Ok tt, s') ->
  s'.(svc_heap) !! p = Some (createdCopy now inc) /\
  (createdCopy now inc).(FilePath) = "prompts/" +:+ inc.(ID) +:+ ".md" /\
  (createdCopy now inc).(Version) = inc.(Version) /\
  s'.(svc_fs).(fs_files) =
    <[ (createdCopy now inc).(FilePath) := serializePrompt (createdCopy now inc) ]>
      s.(svc_fs).(fs_files).
Proof.
  intros Hinc Hfp _ HG H. unfold SavePrompt in H.
  bind_as H cur s0 Hd. apply deref_inv in Hd as [Hc ->].
  rewrite Hinc in Hc. injection Hc as <-.
  bind_as H found s2 Ha. unfold attempt in Ha. rewrite HG in Ha.
  injection Ha as <- <-.
  destruct (Frames_GetPrompt _ _ _ _ HG) as (_ & Hf1 & Hh1).
  destruct (CreatePrompt_ok_inv _ _ _ _ H) as (inc' & Hinc' & Hp' & Hfs).
  rewrite (lookup_weaken _ _ _ _ Hinc Hh1) in Hinc'. injection Hinc' as <-.
  split; [exact Hp'|]. split; [unfold createdCopy; cbn [FilePath set_FilePath]; rewrite Hfp; reflexivity|].
  split; [reflexivity|]. rewrite Hfs, Hf1. reflexivity.
Qed.

Lemma SavePrompt_new_creates_witness :
  svc_b.(svc_heap) !! 1%positive = Some incoming_b /\
  incoming_b.(FilePath) = "" /\ Contains incoming_b.(ID) "/" = false /\
  GetPrompt "b" svc_b = (Err "prompt not found: b", (GetPrompt "b" svc_b).2) /\
  (SavePrompt 5 1 svc_b).1 = Ok tt /\
  (SavePrompt 5 1 svc_b).2.(svc_heap) !! 1%positive = Some (createdCopy 5 incoming_b) /\
  (createdCopy 5 incoming_b).(FilePath) = "prompts/" +:+ incoming_b.(ID) +:+ ".md" /\
  (createdCopy 5 incoming_b).(Version) = incoming_b.(Version) /\
  (SavePrompt 5 1 svc_b).2.(svc_fs).(fs_files) =
    <[ (createdCopy 5 incoming_b).(FilePath) := serializePrompt (createdCopy 5 incoming_b) ]>
      svc_b.(svc_fs).(fs_files).
Proof.
  assert (H1 : svc_b.(svc_heap) !! 1%positive = Some incoming_b) by reflexivity.
  assert (H2 : GetPrompt "b" svc_b = (Err "prompt not found: b", (GetPrompt "b" svc_b).2))
    by (vm_compute; reflexivity).
  assert (E : SavePrompt 5 1 svc_b = (Ok tt, (SavePrompt 5 1 svc_b).2))
    by (vm_compute; reflexivity).
  assert (H3 : incoming_b.(FilePath) = "") by reflexivity.
  assert (H4 : Contains incoming_b.(ID) "/" = false) by (vm_compute; reflexivity).
  split; [exact H1|]. split; [exact H3|]. split; [exact H4|].
  split; [exact H2|]. split; [rewrite E; reflexivity|].
  exact (SavePrompt_new_creates 5 1 svc_b incoming_b _ _ _ H1 H3 H4 H2 E).
Defined.

(* ------------------------------------------------------------------ *)
(** ** Git: syncing, conflicts, status, the background loop *)

Lemma pushCount_branch_push b ob o : pushCount [(branchArgs, ob); (pushArgs b, o)] = 1%nat.
Proof. reflexivity. Qed.

Lemma pushWithRetry_adds git g log r log' :
  pushWithRetry git g log = (r, log') ->
  exists post, log' = log ++ post /\ (pushCount post <= 2)%nat.
Proof.
  intros H. unfold pushWithRetry in H.
  destruct (getCurrentBranch_eq git log) as [b1 Hb1].
  rewrite (bind_ok _ _ _ _ _ Hb1) in H.
  rewrite (bind_ok _ _ _ _ _ (attempt_run_eq _ _ _)) in H.
  set (ob1 := git log branchArgs) in H.
  set (o1 := git (log ++ [(branchArgs, ob1)]) (pushArgs b1)) in H.
  rewrite <- app_assoc in H. cbn [app] in H.
  destruct (gitResult (pushArgs b1) o1) as [u|e1].
  { inversion H; subst. eexists. split; [reflexivity|]. rewrite pushCount_branch_push. lia. }
  destruct (Contains e1 "rejected" || Contains e1 "non-fast-forward").
  2:{ inversion H; subst. eexists. split; [reflexivity|]. rewrite pushCount_branch_push. lia. }
  unfold bind at 1, attempt at 1 in H.
  destruct (PullChanges git g _) as [pr plog] eqn:Ep.
  destruct (Adds_PullChanges git g _ _ _ Ep) as (prest & -> & Hp0).
  destruct pr as [u|pe].
  - destruct (getCurrentBranch_eq git ((log ++ [(branchArgs, ob1); (pushArgs b1, o1)]) ++ prest))
      as [b2 Hb2].
    rewrite (bind_ok _ _ _ _ _ Hb2) in H.
    rewrite (bind_ok _ _ _ _ _ (attempt_run_eq _ _ _)) in H.
    match type of H with
    | (match ?x with _ => _ end) _ = _ =>
        exists ([(branchArgs, ob1); (pushArgs b1, o1)] ++ prest ++
                [(branchArgs, git ((log ++ [(branchArgs, ob1); (pushArgs b1, o1)]) ++ prest) branchArgs);
                 (pushArgs b2, git (((log ++ [(branchArgs, ob1); (pushArgs b1, o1)]) ++ prest) ++
                    [(branchArgs, git ((log ++ [(branchArgs, ob1); (pushArgs b1, o1)]) ++ prest) branchArgs)])
                    (pushArgs b2))]);
        split; [destruct x; inversion H; subst; rewrite <- !app_assoc; reflexivity|]
    end.
    rewrite !pushCount_app, pushCount_branch_push, Hp0, pushCount_branch_push. lia.
  - inversion H; subst. exists ([(branchArgs, ob1); (pushArgs b1, o1)] ++ prest).
    split; [rewrite app_assoc; reflexivity|].
    rewrite pushCount_app, pushCount_branch_push, Hp0. lia.
Qed.

(** [SyncChanges] pushes only after a commit of the message stamped with
    the time has succeeded, and then at most twice; before that commit
    (pull, staging, the check for staged changes) nothing is pushed, and
    when it does not commit it pushes nothing at all. *)
Theorem SyncChanges_push_after_commit git g msg now log r log' :
  SyncChanges git g msg now log = (r, log') ->
  (exists new, log' = log ++ new /\ pushCount new = 0%nat) \/
  (exists mid oc post,
     log' = log ++ mid ++ (["commit"; "-m"; msg +:+ " - " +:+ now], oc) :: post /\
     pushCount mid = 0%nat /\ succeeded oc = true /\ (pushCount post <= 2)%nat).
Proof.
  intros H. unfold SyncChanges in H.
  destruct (negb (IsEnabled g)).
  { inversion H; subst. left. exists []. rewrite app_nil_r. auto. }
  destruct (PullChanges git g log) as [pr l1] eqn:Ep.
  destruct (Adds_PullChanges git g _ _ _ Ep) as (n1 & -> & Hn1).
  assert (Ha : attempt (PullChanges git g) log = (Ok pr, log ++ n1))
    by (unfold attempt; rewrite Ep; reflexivity).
  rewrite (bind_ok _ _ _ _ _ Ha) in H.
  pose proof (runGitCommand_eq git ["add"; "-A"] (log ++ n1)) as Er.
  set (oa := git (log ++ n1) ["add"; "-A"]) in Er.
  destruct (gitResult ["add"; "-A"] oa) as [u|e] eqn:Eadd.
  2:{ rewrite (bind_err _ _ _ _ _ (wrapErr_err _ _ _ _ _ Er)) in H. inversion H; subst.
      left. exists (n1 ++ [(["add"; "-A"], oa)]).
      split; [rewrite app_assoc; reflexivity|]. rewrite pushCount_app, Hn1. reflexivity. }
  rewrite (bind_ok _ _ _ _ _ (wrapErr_ok _ _ _ _ _ Er)) in H.
  assert (HA : Runs Adds (hasChangesToCommit git))
    by (apply Runs_hasChangesToCommit; [exact Adds_refl|exact Adds_trans|exact Adds_exec]).
  destruct (hasChangesToCommit git ((log ++ n1) ++ [(["add"; "-A"], oa)])) as [[has|e] l3] eqn:Eh.
  2:{ destruct (HA _ _ _ Eh) as (n3 & -> & Hn3).
      rewrite (bind_err _ _ _ _ _ (wrapErr_err _ _ _ _ _ Eh)) in H. inversion H; subst.
      left. exists (n1 ++ [(["add"; "-A"], oa)] ++ n3).
      split; [rewrite <- !app_assoc; reflexivity|]. rewrite !pushCount_app, Hn1, Hn3. reflexivity. }
  destruct (HA _ _ _ Eh) as (n3 & -> & Hn3).
  rewrite (bind_ok _ _ _ _ _ (wrapErr_ok _ _ _ _ _ Eh)) in H.
  destruct (negb has).
  { inversion H; subst. left. exists (n1 ++ [(["add"; "-A"], oa)] ++ n3).
    split; [rewrite <- !app_assoc; reflexivity|]. rewrite !pushCount_app, Hn1, Hn3. reflexivity. }
  set (L3 := ((log ++ n1) ++ [(["add"; "-A"], oa)]) ++ n3) in H.
  pose proof (runGitCommand_eq git ["commit"; "-m"; msg +:+ " - " +:+ now] L3) as Ec.
  set (oc := git L3 ["commit"; "-m"; msg +:+ " - " +:+ now]) in Ec.
  destruct (gitResult ["commit"; "-m"; msg +:+ " - " +:+ now] oc) as [u'|e] eqn:Ecm.
  2:{ rewrite (bind_err _ _ _ _ _ (wrapErr_err _ _ _ _ _ Ec)) in H. inversion H; subst.
      left. exists (n1 ++ [(["add"; "-A"], oa)] ++ n3 ++ [(["commit"; "-m"; msg +:+ " - " +:+ now], oc)]).
      split; [unfold L3; rewrite <- !app_assoc; reflexivity|].
      rewrite !pushCount_app, Hn1, Hn3. reflexivity. }
  rewrite (bind_ok _ _ _ _ _ (wrapErr_ok _ _ _ _ _ Ec)) in H.
  unfold wrapErr in H.
  destruct (pushWithRetry git g _) as [pw l5] eqn:Epw.
  destruct (pushWithRetry_adds _ _ _ _ _ Epw) as (post & -> & Hpost).
  right. exists (n1 ++ [(["add"; "-A"], oa)] ++ n3), oc, post.
  split; [|split; [|split]].
  - destruct pw; inversion H; subst; unfold L3; rewrite <- !app_assoc; reflexivity.
  - rewrite !pushCount_app, Hn1, Hn3. reflexivity.
  - exact (gitResult_Ok _ _ _ Ecm).
  - exact Hpost.
Qed.

Lemma SyncChanges_push_after_commit_witness :
  pushCount (SyncChanges git_retry g_on "edit" "2026-10-16" []).2 = 2%nat /\
  ((exists new, (SyncChanges git_retry g_on "edit" "2026-10-16" []).2 = [] ++ new /\
                pushCount new = 0%nat) \/
   (exists mid oc post,
     (SyncChanges git_retry g_on "edit" "2026-10-16" []).2 =
       [] ++ mid ++ (["commit"; "-m"; "edit" +:+ " - " +:+ "2026-10-16"], oc) :: post /\
     pushCount mid = 0%nat /\ succeeded oc = true /\ (pushCount post <= 2)%nat)).
Proof.
  split; [vm_compute; reflexivity|].
  apply (SyncChanges_push_after_commit git_retry g_on "edit" "2026-10-16" []
           (SyncChanges git_retry g_on "edit" "2026-10-16" []).1).
  apply surjective_pairing.
Defined.

Lemma resolveFiles_ok git files log log' :
  resolveFiles git files log = (Ok tt, log') ->
  exists resolved,
    log' = log ++ resolved /\
    map fst resolved =
      flat_map (fun f => [["checkout"; "--theirs"; f]; ["add"; f]])
        (List.filter (fun f => negb (String.eqb f "")) files) /\
    Forall (fun e => succeeded e.2 = true) resolved.
Proof.
  revert log. induction files as [|file rest IH]; intros log H; cbn [resolveFiles] in H.
  - inversion H; subst. exists []. rewrite app_nil_r. auto.
  - bind_as H u l1 Hm. cbn [List.filter].
    destruct (String.eqb file "") eqn:Ef; cbn [negb].
    + apply ret_inv in Hm as [_ ->]. exact (IH _ H).
    + bind_as Hm u' l0 Hc. apply wrapErr_ok_inv in Hc, Hm.
      rewrite runGitCommand_eq in Hc, Hm. injection Hc as Hg1 <-. injection Hm as Hg2 <-.
      destruct (IH _ H) as (resolved & -> & Hmap & Hall).
      eexists. split; [|split].
      * rewrite <- !app_assoc. reflexivity.
      * cbn. rewrite Hmap. reflexivity.
      * repeat constructor; [exact (gitResult_Ok _ _ _ Hg1)|exact (gitResult_Ok _ _ _ Hg2)|exact Hall].
Qed.

(** When [resolveConflictsAutomatically] succeeds, the conflict listing
    exited with 0; for every non-empty line of it, in order, it checked
    out "their" side of the file and staged it, each command succeeding;
    and the last command was a [commit --no-edit] that succeeded. *)
Theorem resolveConflicts_take_theirs git log log' :
  resolveConflictsAutomatically git log = (Ok tt, log') ->
  exists out resolved oc,
    git log ["diff"; "--name-only"; "--diff-filter=U"] = Exit 0 out /\
    log' = log ++ [(["diff"; "--name-only"; "--diff-filter=U"], Exit 0 out)] ++ resolved ++
             [(["commit"; "--no-edit"], oc)] /\
    map fst resolved =
      flat_map (fun f => [["checkout"; "--theirs"; f]; ["add"; f]])
        (List.filter (fun f => negb (String.eqb f "")) (Split (TrimSpace out) (str1 10))) /\
    Forall (fun e => succeeded e.2 = true) resolved /\
    succeeded oc = true.
Proof.
  intros H. unfold resolveConflictsAutomatically in H.
  rewrite (bind_ok _ _ _ _ _ (exec_git_eq _ _ _)) in H.
  destruct (git log ["diff"; "--name-only"; "--diff-filter=U"]) as [c out|] eqn:Eo;
    [|inversion H].
  cbn [succeeded negb] in H. destruct (Z.eqb c 0) eqn:Ec; cbn [negb] in H; [|inversion H].
  apply Z.eqb_eq in Ec. subst c.
  destruct (Split (TrimSpace out) (str1 10)) as [|f rest] eqn:Esp; [inversion H|].
  destruct f as [|ch f']; [inversion H|].
  bind_as H u l1 Hr. destruct u.
  apply resolveFiles_ok in Hr as (resolved & -> & Hmap & Hall).
  apply wrapErr_ok_inv in H. rewrite runGitCommand_eq in H. injection H as Hg <-.
  exists out, resolved, (git ((log ++ [(["diff"; "--name-only"; "--diff-filter=U"], Exit 0 out)]) ++
                               resolved) ["commit"; "--no-edit"]).
  split; [reflexivity|]. split; [rewrite <- !app_assoc; reflexivity|].
  split; [rewrite Esp; exact Hmap|]. split; [exact Hall|]. exact (gitResult_Ok _ _ _ Hg).
Qed.

(** A repository where two files are in conflict and every command succeeds. *)
Lemma resolveConflicts_take_theirs_witness :
  map fst (resolveConflictsAutomatically git_conflicted []).2 =
    [["diff"; "--name-only"; "--diff-filter=U"];
     ["checkout"; "--theirs"; "prompts/a.md"]; ["add"; "prompts/a.md"];
     ["checkout"; "--theirs"; "prompts/b.md"]; ["add"; "prompts/b.md"];
     ["commit"; "--no-edit"]] /\
  exists out resolved oc,
    git_conflicted [] ["diff"; "--name-only"; "--diff-filter=U"] = Exit 0 out /\
    (resolveConflictsAutomatically git_conflicted []).2 =
      [] ++ [(["diff"; "--name-only"; "--diff-filter=U"], Exit 0 out)] ++ resolved ++
        [(["commit"; "--no-edit"], oc)] /\
    map fst resolved =
      flat_map (fun f => [["checkout"; "--theirs"; f]; ["add"; f]])
        (List.filter (fun f => negb (String.eqb f "")) (Split (TrimSpace out) (str1 10))) /\
    Forall (fun e => succeeded e.2 = true) resolved /\
    succeeded oc = true.
Proof.
  split; [vm_compute; reflexivity|].
  apply resolveConflicts_take_theirs.
  assert (E : (resolveConflictsAutomatically git_conflicted []).1 = Ok tt)
    by (vm_compute; reflexivity).
  rewrite <- E. apply surjective_pairing.
Defined.

Lemma hasRemote_eq git log :
  hasRemote git log =
    (Ok (match git log remoteArgs with
         | Exit c out => Z.eqb c 0 && negb (String.eqb (TrimSpace out) "")
         | TimedOut => false
         end), log ++ [(remoteArgs, git log remoteArgs)]).
Proof. reflexivity. Qed.

(** [Initialize] never fails. It turns sync on exactly when [.git]
    exists and [git remote -v] exits with 0 and prints something other
    than blanks; it runs no command when [.git] is missing, and only
    [git remote -v] otherwise. *)
Theorem Initialize_enables git g log :
  exists g' log',
    Initialize git g log = (Ok g', log') /\
    g'.(baseDir) = g.(baseDir) /\ g'.(gitDirExists) = g.(gitDirExists) /\
    (IsEnabled g' = true <->
       g.(gitDirExists) = true /\
       exists out, git log remoteArgs = Exit 0 out /\ TrimSpace out <> "") /\
    log' = (if g.(gitDirExists) then log ++ [(remoteArgs, git log remoteArgs)] else log).
Proof.
  unfold Initialize. destruct (gitDirExists g) eqn:Eg; cbn [negb].
  - rewrite (bind_ok _ _ _ _ _ (hasRemote_eq _ _)).
    set (b := match git log remoteArgs with
              | Exit c out => Z.eqb c 0 && negb (String.eqb (TrimSpace out) "")
              | TimedOut => false end).
    assert (Hb : b = true <-> exists out, git log remoteArgs = Exit 0 out /\ TrimSpace out <> "").
    { unfold b. destruct (git log remoteArgs) as [c out|]; split.
      - intros Hc. apply andb_prop in Hc as [Hc Ht]. apply Z.eqb_eq in Hc. subst.
        exists out. split; [reflexivity|]. apply negb_true_iff, String.eqb_neq in Ht. exact Ht.
      - intros (o & Ho & Ht). injection Ho as -> ->. cbn [Z.eqb andb].
        apply negb_true_iff, String.eqb_neq. exact Ht.
      - discriminate.
      - intros (o & Ho & _). discriminate. }
    destruct b; cbn [negb]; eexists _, _; (split; [reflexivity|]); unfold IsEnabled; cbn;
      rewrite ?Eg; (split; [reflexivity|]); (split; [reflexivity|]); (split; [|reflexivity]).
    + split; [intros _; split; [reflexivity|apply Hb; reflexivity]|reflexivity].
    + split; [discriminate|]. intros [_ Hx]. apply Hb in Hx. discriminate.
  - eexists _, _. split; [reflexivity|]. unfold IsEnabled. cbn. rewrite ?Eg.
    repeat split; try reflexivity; try discriminate. intros [H _]. discriminate.
Qed.

(** [GetStatus] never fails and changes nothing: it runs at most
    [git remote -v] and then [git status --porcelain --branch], the
    latter only when [.git] exists, a remote is configured and sync is
    enabled; it returns an error only when that status command exited
    with a non-zero code, and the error names that code. *)
Theorem GetStatus_read_only git g log :
  exists st err new,
    GetStatus git g log = (Ok (st, err), log ++ new) /\
    (map fst new = [] \/ map fst new = [remoteArgs] \/
     (map fst new = [remoteArgs; statusArgs] /\ g.(gitDirExists) = true /\ g.(enabled) = true)) /\
    (forall e, err = Some e ->
       exists c out, In (statusArgs, Exit c out) new /\ c <> 0 /\ e = "exit status " +:+ Itoa c).
Proof.
  unfold GetStatus. destruct (gitDirExists g) eqn:Eg; cbn [negb].
  2:{ exists "Git not initialized", None, []. rewrite app_nil_r.
      split; [reflexivity|]. split; [left; reflexivity|discriminate]. }
  rewrite (bind_ok _ _ _ _ _ (hasRemote_eq _ _)).
  destruct (match git log remoteArgs with
            | Exit c out => Z.eqb c 0 && negb (String.eqb (TrimSpace out) "")
            | TimedOut => false end); cbn [negb].
  2:{ exists "No remote configured", None, [(remoteArgs, git log remoteArgs)].
      split; [reflexivity|]. split; [right; left; reflexivity|discriminate]. }
  destruct (enabled g) eqn:Een; cbn [negb].
  2:{ exists "Git sync disabled", None, [(remoteArgs, git log remoteArgs)].
      split; [reflexivity|]. split; [right; left; reflexivity|discriminate]. }
  rewrite (bind_ok _ _ _ _ _ (exec_git_eq _ _ _)). rewrite <- app_assoc. cbn [app].
  generalize (git (log ++ [(remoteArgs, git log remoteArgs)]) statusArgs) as o. intros o.
  assert (Hnew : map fst [(remoteArgs, git log remoteArgs); (statusArgs, o)] = [remoteArgs; statusArgs])
    by reflexivity.
  destruct o as [c out|].
  - destruct (negb (Z.eqb c 0)) eqn:Ec.
    + eexists _, _, _. split; [reflexivity|].
      split; [right; right; auto|]. intros e He. injection He as <-.
      exists c, out. split; [right; left; reflexivity|].
      split; [apply negb_true_iff, Z.eqb_neq in Ec; exact Ec|reflexivity].
    + match goal with
      | |- exists st err new, ?m ?L = _ /\ _ =>
          assert (Hn : exists st, m L = (Ok (st, None), L))
      end.
      { destruct (Split out (str1 10)) as [|bl rest]; [eexists; reflexivity|].
        destruct (Contains bl "[ahead"); [eexists; reflexivity|].
        destruct (Contains bl "[behind"); [eexists; reflexivity|].
        destruct rest as [|l1 rest']; [eexists; reflexivity|].
        destruct (negb (String.eqb l1 "")); eexists; reflexivity. }
      destruct Hn as [st Hn]. rewrite Hn.
      exists st, None, [(remoteArgs, git log remoteArgs); (statusArgs, Exit c out)]. split; [reflexivity|]. split; [right; right; auto|discriminate].
  - eexists _, _, _. split; [reflexivity|]. split; [right; right; auto|discriminate].
Qed.

Lemma Adds_handlePullConflict git e : Runs Adds (handlePullConflict git e).
Proof.
  apply Runs_handlePullConflict_with; [exact Adds_refl|exact Adds_trans|exact Adds_exec| |].
  - intros b. apply Runs_run_with. intros. apply Adds_snoc. reflexivity.
  - unfold resetToRemote.
    apply Runs_bind; [exact Adds_trans|apply Runs_getCurrentBranch;
                      [exact Adds_refl|exact Adds_trans|exact Adds_exec]|].
    intros b. apply Runs_bind; [exact Adds_trans| |intros _];
      (apply Runs_wrapErr, Runs_run_with; intros; apply Adds_snoc; reflexivity).
Qed.

Lemma PullChanges_fetch_first git g log r log' :
  IsEnabled g = true -> PullChanges git g log = (r, log') ->
  exists o rest, log' = log ++ (["fetch"; "origin"], o) :: rest.
Proof.
  intros Eg H. unfold PullChanges in H. rewrite Eg in H. cbn [negb] in H.
  pose proof (runGitCommand_eq git ["fetch"; "origin"] log) as Er.
  destruct (gitResult ["fetch"; "origin"] (git log ["fetch"; "origin"])) as [u|e] eqn:Ef.
  2:{ rewrite (bind_err _ _ _ _ _ (wrapErr_err _ _ _ _ _ Er)) in H. inversion H; subst.
      eexists _, []. reflexivity. }
  rewrite (bind_ok _ _ _ _ _ (wrapErr_ok _ _ _ _ _ Er)) in H. cbv beta in H.
  match type of H with ?m ?l = _ => assert (HR : Runs Adds m) end.
  { apply Runs_bind; [exact Adds_trans| |intros behind].
    - apply Runs_wrapErr, Runs_isBehindRemote; [exact Adds_refl|exact Adds_trans|exact Adds_exec].
    - destruct (negb behind); [apply Runs_ret; exact Adds_refl|].
      apply Runs_bind; [exact Adds_trans|apply Runs_getCurrentBranch;
                        [exact Adds_refl|exact Adds_trans|exact Adds_exec]|intros b].
      apply Runs_bind; [exact Adds_trans| |intros [u'|e']].
      + apply Runs_attempt, Runs_run_with. intros. apply Adds_snoc. reflexivity.
      + apply Runs_ret. exact Adds_refl.
      + apply Adds_handlePullConflict. }
  destruct (HR _ _ _ H) as (n & -> & _).
  exists (git log ["fetch"; "origin"]), n. rewrite <- app_assoc. reflexivity.
Qed.

Lemma fetchCount_app l1 l2 : fetchCount (l1 ++ l2) = (fetchCount l1 + fetchCount l2)%nat.
Proof. unfold fetchCount. rewrite List.filter_app, List.length_app. reflexivity. Qed.

Lemma backgroundLoop_spec git g evs log r log' :
  backgroundLoop git g evs log = (r, log') ->
  r = Ok tt /\
  exists new, log' = log ++ new /\ pushCount new = 0%nat /\
    (IsEnabled g = true -> (ticksBeforeCancel evs <= fetchCount new)%nat) /\
    (ordered log -> ordered log').
Proof.
  revert log. induction evs as [|ev rest IH]; intros log H.
  - inversion H; subst. split; [reflexivity|]. exists []. rewrite app_nil_r.
    split; [reflexivity|]. split; [reflexivity|]. split; [intros; cbn; lia|]. auto.
  - destruct ev; cbn [backgroundLoop] in H.
    + destruct (PullChanges git g log) as [pr l1] eqn:Ep.
      assert (Ha : attempt (PullChanges git g) log = (Ok pr, l1))
        by (unfold attempt; rewrite Ep; reflexivity).
      rewrite (bind_ok _ _ _ _ _ Ha) in H.
      destruct (IH _ H) as [Hr (n2 & -> & Hp2 & Hf2 & Ho2)].
      destruct (Adds_PullChanges git g _ _ _ Ep) as (n1 & -> & Hp1).
      split; [exact Hr|]. exists (n1 ++ n2). split; [rewrite app_assoc; reflexivity|].
      split; [rewrite pushCount_app, Hp1, Hp2; reflexivity|]. split.
      * intros Eg. destruct (PullChanges_fetch_first _ _ _ _ _ Eg Ep) as (o & rest' & Hl).
        apply app_inv_head in Hl. subst n1.
        rewrite fetchCount_app. specialize (Hf2 Eg). cbn [ticksBeforeCancel].
        unfold fetchCount at 1. cbn. lia.
      * intros Hord. apply Ho2. exact (Keeps_PullChanges git g _ _ _ Ep Hord).
    + inversion H; subst. split; [reflexivity|]. exists []. rewrite app_nil_r.
      split; [reflexivity|]. split; [reflexivity|]. split; [intros; cbn; lia|]. auto.
Qed.

(** [BackgroundSync] never fails and never pushes: it runs nothing when
    sync is disabled, and otherwise runs [PullChanges] (with its fetch)
    at every tick until it is cancelled, even after a failed pull; the
    order in which the pull conflict strategies run is kept. *)
Theorem BackgroundSync_pulls_only git g evs log r log' :
  BackgroundSync git g evs log = (r, log') ->
  r = Ok tt /\
  exists new, log' = log ++ new /\ pushCount new = 0%nat /\
    (IsEnabled g = false -> new = []) /\
    (IsEnabled g = true -> (ticksBeforeCancel evs <= fetchCount new)%nat) /\
    (ordered log -> ordered log').
Proof.
  unfold BackgroundSync. destruct (IsEnabled g) eqn:Eg; cbn [negb]; intros H.
  - destruct (backgroundLoop_spec _ _ _ _ _ _ H) as [Hr (new & Hl & Hp & Hf & Ho)].
    split; [exact Hr|]. exists new.
    split; [exact Hl|]. split; [exact Hp|]. split; [discriminate|]. split; [intros _; exact (Hf Eg)|exact Ho].
  - inversion H; subst. split; [reflexivity|]. exists []. rewrite app_nil_r.
    split; [reflexivity|]. split; [reflexivity|]. split; [reflexivity|].
    split; [discriminate|auto].
Qed.

Lemma BackgroundSync_pulls_only_witness :
  fetchCount (BackgroundSync git_divergent g_on [Tick; Tick; Cancel; Tick] []).2 = 4%nat /\
  (BackgroundSync git_divergent g_on [Tick; Tick; Cancel; Tick] []).1 = Ok tt /\
  exists new, (BackgroundSync git_divergent g_on [Tick; Tick; Cancel; Tick] []).2 = [] ++ new /\
    pushCount new = 0%nat /\
    (IsEnabled g_on = false -> new = []) /\
    (IsEnabled g_on = true -> (ticksBeforeCancel [Tick; Tick; Cancel; Tick] <= fetchCount new)%nat) /\
    (ordered [] -> ordered (BackgroundSync git_divergent g_on [Tick; Tick; Cancel; Tick] []).2).
Proof.
  split; [vm_compute; reflexivity|].
  apply (BackgroundSync_pulls_only git_divergent g_on [Tick; Tick; Cancel; Tick] []
           (BackgroundSync git_divergent g_on [Tick; Tick; Cancel; Tick] []).1).
  apply surjective_pairing.
Defined.

(* ------------------------------------------------------------------ *)
(** ** Models and the CLI: tag lists, the result limit, editing flags *)

Lemma str_app_assoc (a b c : string) : (a +:+ b) +:+ c = a +:+ (b +:+ c).
Proof. induction a as [|ch a IH]; [reflexivity|]. exact (f_equal (String ch) IH). Qed.

Lemma str_app_nil_r (a : string) : a +:+ "" = a.
Proof. induction a as [|ch a IH]; [reflexivity|]. exact (f_equal (String ch) IH). Qed.

Lemma concat_empty_cons (x : string) (l : list string) :
  String.concat "" (x :: l) = x +:+ String.concat "" l.
Proof. destruct l; [symmetry; apply str_app_nil_r|reflexivity]. Qed.

Lemma joinTags_fold_tail (ts : list string) (i : nat) (r : string) :
  (fold_left (fun (acc : nat * string) tag =>
                let '(i, result) := acc in
                (S i, (if Nat.ltb 0 i then result +:+ ", " else result) +:+ tag))
             ts (S i, r)).2 =
  r +:+ String.concat "" (map (fun t => ", " +:+ t) ts).
Proof.
  revert i r. induction ts as [|t ts IH]; intros i r.
  - symmetry. apply str_app_nil_r.
  - change (map (fun t => ", " +:+ t) (t :: ts)) with ((", " +:+ t) :: map (fun t => ", " +:+ t) ts).
    rewrite concat_empty_cons. cbn [fold_left]. cbn [Nat.ltb Nat.leb].
    rewrite IH, !str_app_assoc. reflexivity.
Qed.

Lemma concat_sep_cons (t : string) (ts : list string) :
  String.concat ", " (t :: ts) = t +:+ String.concat "" (map (fun t => ", " +:+ t) ts).
Proof.
  revert t. induction ts as [|t' ts IH]; intros t.
  - symmetry. apply str_app_nil_r.
  - transitivity (t +:+ ", " +:+ String.concat ", " (t' :: ts)); [reflexivity|].
    rewrite IH.
    change (map (fun t => ", " +:+ t) (t' :: ts)) with ((", " +:+ t') :: map (fun t => ", " +:+ t) ts).
    rewrite concat_empty_cons, !str_app_assoc. reflexivity.
Qed.

(** [joinTags] is [strings.Join(tags, ", ")]: the tags in order,
    separated by a comma and a space, with no separator at either end. *)
Theorem joinTags_is_Join (tags : list string) : joinTags tags = String.concat ", " tags.
Proof.
  unfold joinTags. destruct tags as [|t ts]; [reflexivity|].
  cbn [fold_left Nat.ltb Nat.leb]. rewrite joinTags_fold_tail, concat_sep_cons.
  reflexivity.
Qed.

(** The [limit] parameter only ever keeps a prefix of the results; a
    positive number [n] keeps [min n (length results)] of them, and
    anything else (no limit, zero, a negative number, text that is not
    a number) keeps them all. *)
Theorem applyLimit_prefix {A} (limitStr : string) (prompts : list A) :
  (exists rest, prompts = applyLimit limitStr prompts ++ rest) /\
  length (applyLimit limitStr prompts) =
    match Atoi limitStr with
    | Some n => if 0 <? n then Nat.min (Z.to_nat n) (length prompts) else length prompts
    | None => length prompts
    end.
Proof.
  unfold applyLimit. destruct (String.eqb limitStr "") eqn:E.
  { apply String.eqb_eq in E. subst. split; [exists []; rewrite app_nil_r|]; reflexivity. }
  destruct (Atoi limitStr) as [n|]; [|split; [exists []; rewrite app_nil_r|]; reflexivity].
  destruct (0 <? n) eqn:H1; cbn [andb];
    [|split; [exists []; rewrite app_nil_r|]; reflexivity].
  destruct (n <? Z.of_nat (length prompts)) eqn:H2.
  - split; [exists (skipn (Z.to_nat n) prompts); symmetry; apply firstn_skipn|].
    apply length_firstn.
  - split; [exists []; rewrite app_nil_r; reflexivity|].
    apply Z.ltb_ge in H2. lia.
Qed.

Section EditFlags.
(** A property of prompt objects that each flag of [edit] keeps;
    [--tags] need only keep it when [tagsOk] holds. *)
Variable P : Prompt -> Prop.
Variable tagsOk : Prop.
Hypothesis HN : forall v p, P p -> P (set_Name v p).
Hypothesis HS : forall v p, P p -> P (set_Summary v p).
Hypothesis HC : forall v p, P p -> P (set_Content v p).
Hypothesis HT : forall v p, P p -> P (set_TemplateRef v p).
Hypothesis HGt : tagsOk -> forall v p, P p -> P (set_Tags (map TrimSpace (Split v ",")) p).
Hypothesis HGa : forall tag p, P p -> ~ In tag p.(Tags) -> P (set_Tags (p.(Tags) ++ [tag]) p).
Hypothesis HGr : forall tag p, P p ->
  P (set_Tags (List.filter (fun t => negb (String.eqb t tag)) p.(Tags)) p).

Lemma editFlags_keeps_n n : forall args p,
  (length args <= n)%nat -> (In "--tags" (appliedFlags args) -> tagsOk) -> P p ->
  P (editFlags args p).
Proof.
  induction n as [|n IH]; intros args p Hl Ht Hp;
    (destruct args as [|arg rest]; [exact Hp|]); [cbn in Hl; lia|].
  cbn [editFlags]. destruct rest as [|v rest'].
  - repeat match goal with |- P (if ?b then _ else _) => destruct b end; exact Hp.
  - assert (Hlen : (length rest' <= n)%nat) by (cbn in Hl; lia).
    change (appliedFlags (arg :: v :: rest'))
      with (if existsb (String.eqb arg) editFlagNames then arg :: appliedFlags rest'
            else appliedFlags (v :: rest')) in Ht.
    cbn [existsb editFlagNames] in Ht.
    destruct (String.eqb arg "--title"); cbn [orb] in Ht;
      [apply IH; [exact Hlen|intros Hi; apply Ht; right; exact Hi|auto]|].
    destruct (String.eqb arg "--description"); cbn [orb] in Ht;
      [apply IH; [exact Hlen|intros Hi; apply Ht; right; exact Hi|auto]|].
    destruct (String.eqb arg "--content"); cbn [orb] in Ht;
      [apply IH; [exact Hlen|intros Hi; apply Ht; right; exact Hi|auto]|].
    destruct (String.eqb arg "--template"); cbn [orb] in Ht;
      [apply IH; [exact Hlen|intros Hi; apply Ht; right; exact Hi|auto]|].
    destruct (String.eqb arg "--tags") eqn:Etags; cbn [orb] in Ht.
    { apply IH; [exact Hlen|intros Hi; apply Ht; right; exact Hi|].
      apply HGt; [|exact Hp]. apply Ht. left.
      apply String.eqb_eq in Etags. exact Etags. }
    destruct (String.eqb arg "--add-tag"); cbn [orb] in Ht.
    { apply IH; [exact Hlen|intros Hi; apply Ht; right; exact Hi|].
      destruct (existsb _ _) eqn:Ex; [exact Hp|].
      apply HGa; [exact Hp|]. intros Hin.
      assert (Hx : existsb (fun t => String.eqb t (TrimSpace v)) (Tags p) = true).
      { apply existsb_exists. exists (TrimSpace v). split; [exact Hin|apply String.eqb_refl]. }
      congruence. }
    destruct (String.eqb arg "--remove-tag"); cbn [orb] in Ht;
      [apply IH; [exact Hlen|intros Hi; apply Ht; right; exact Hi|auto]|].
    apply IH; [cbn in *; lia|exact Ht|exact Hp].
Qed.

Lemma editFlags_keeps args p :
  (In "--tags" (appliedFlags args) -> tagsOk) -> P p -> P (editFlags args p).
Proof. intros. eapply editFlags_keeps_n; [reflexivity|assumption|assumption]. Qed.
End EditFlags.

(** The flags of [edit] never change a prompt's id, version, creation
    and update times or file path: only its title, description, content,
    template and tags. *)
Theorem editFlags_keeps_identity args p :
  (editFlags args p).(ID) = p.(ID) /\ (editFlags args p).(Version) = p.(Version) /\
  (editFlags args p).(CreatedAt) = p.(CreatedAt) /\ (editFlags args p).(UpdatedAt) = p.(UpdatedAt) /\
  (editFlags args p).(FilePath) = p.(FilePath).
Proof.
  apply (editFlags_keeps
           (fun q => q.(ID) = p.(ID) /\ q.(Version) = p.(Version) /\
                     q.(CreatedAt) = p.(CreatedAt) /\ q.(UpdatedAt) = p.(UpdatedAt) /\
                     q.(FilePath) = p.(FilePath)) True);
    try (intros; assumption); try (intros; exact I); auto 10.
Qed.

Lemma NoDup_list_filter {A} (f : A -> bool) (l : list A) : NoDup l -> NoDup (List.filter f l).
Proof.
  induction l as [|x l IH]; intros H; cbn; [constructor|].
  apply NoDup_cons in H as [Hx Hl]. destruct (f x); [constructor|]; auto.
  intros Hin. apply Hx. rewrite list_elem_of_In in *. apply filter_In in Hin. tauto.
Qed.

(** When the loop applies no [--tags] flag, [edit] never introduces a
    duplicate tag: [--add-tag] adds a tag only when it is absent, and
    [--remove-tag] removes every copy. (["--tags"] as the value of
    another flag is no [--tags] flag.) *)
Theorem editFlags_tags_NoDup args p :
  ~ In "--tags" (appliedFlags args) -> NoDup p.(Tags) -> NoDup (editFlags args p).(Tags).
Proof.
  intros Hno Hp.
  apply (editFlags_keeps (fun q => NoDup q.(Tags)) False); try (intros; assumption);
    [intros []|intros tag q Hq Hin|intros tag q Hq|intros Hi; exact (Hno Hi)].
  - cbn. apply NoDup_app. split; [exact Hq|]. split; [|apply NoDup_singleton].
    intros x Hx Hy. apply list_elem_of_singleton in Hy. subst. apply Hin.
    apply list_elem_of_In. exact Hx.
  - cbn. apply NoDup_list_filter. exact Hq.
Qed.

Lemma editFlags_tags_NoDup_witness :
  ~ In "--tags" (appliedFlags ["--title"; "--tags"; "--add-tag"; " y "; "--remove-tag"; "x";
                               "--add-tag"; "x"]) /\
  NoDup (incoming_a "1.0.0" "").(Tags) /\
  (editFlags ["--title"; "--tags"; "--add-tag"; " y "; "--remove-tag"; "x"; "--add-tag"; "x"]
     (incoming_a "1.0.0" "")).(Tags) = ["y"; "x"] /\
  NoDup (editFlags ["--title"; "--tags"; "--add-tag"; " y "; "--remove-tag"; "x"; "--add-tag"; "x"]
           (incoming_a "1.0.0" "")).(Tags).
Proof.
  assert (H1 : ~ In "--tags" (appliedFlags ["--title"; "--tags"; "--add-tag"; " y ";
                                            "--remove-tag"; "x"; "--add-tag"; "x"]))
    by (vm_compute; intuition discriminate).
  assert (H2 : NoDup (incoming_a "1.0.0" "").(Tags)) by (cbn; repeat constructor; set_solver).
  split; [exact H1|]. split; [exact H2|]. split; [vm_compute; reflexivity|].
  exact (editFlags_tags_NoDup _ _ H1 H2).
Defined.

(* ------------------------------------------------------------------ *)
(** ** Git: when the remote counts as ahead *)

(** [isBehindRemote] answers [true] only when both [rev-parse] commands
    succeeded, the remote and local hashes (trimmed) differ, and
    [merge-base --is-ancestor local remote] succeeded; it runs nothing
    else. *)
Theorem isBehindRemote_true git log log' :
  isBehindRemote git log = (Ok true, log') ->
  exists b ob rout lout om,
    log' = log ++ [(branchArgs, ob); (["rev-parse"; "origin/" +:+ b], Exit 0 rout);
                   (["rev-parse"; "HEAD"], Exit 0 lout);
                   (["merge-base"; "--is-ancestor"; TrimSpace lout; TrimSpace rout], om)] /\
    TrimSpace rout <> TrimSpace lout /\ succeeded om = true.
Proof.
  intros H. unfold isBehindRemote in H.
  destruct (getCurrentBranch_eq git log) as [b Hb].
  rewrite (bind_ok _ _ _ _ _ Hb) in H.
  rewrite (bind_ok _ _ _ _ _ (exec_git_eq _ _ _)) in H.
  set (ob := git log branchArgs) in H.
  set (L1 := log ++ [(branchArgs, ob)]) in H.
  destruct (git L1 ["rev-parse"; "origin/" +:+ b]) as [c1 rout|] eqn:E1; cbn [succeeded negb] in H;
    [|inversion H].
  destruct (Z.eqb c1 0) eqn:Ec1; cbn [negb] in H; [|inversion H].
  apply Z.eqb_eq in Ec1. subst c1.
  rewrite (bind_ok _ _ _ _ _ (exec_git_eq _ _ _)) in H.
  set (L2 := L1 ++ [(["rev-parse"; "origin/" +:+ b], Exit 0 rout)]) in H.
  destruct (git L2 ["rev-parse"; "HEAD"]) as [c2 lout|] eqn:E2; cbn [succeeded negb] in H;
    [|inversion H].
  destruct (Z.eqb c2 0) eqn:Ec2; cbn [negb] in H; [|inversion H].
  apply Z.eqb_eq in Ec2. subst c2.
  destruct (String.eqb (TrimSpace rout) (TrimSpace lout)) eqn:Eh; cbn [negb] in H;
    [inversion H|].
  rewrite (bind_ok _ _ _ _ _ (exec_git_eq _ _ _)) in H.
  injection H as Hom <-.
  exists b, ob, rout, lout,
    (git (L2 ++ [(["rev-parse"; "HEAD"], Exit 0 lout)])
       ["merge-base"; "--is-ancestor"; TrimSpace lout; TrimSpace rout]).
  split; [|split].
  - unfold L2, L1. rewrite <- !app_assoc. reflexivity.
  - apply String.eqb_neq. exact Eh.
  - exact Hom.
Qed.

Lemma isBehindRemote_true_witness :
  (isBehindRemote git_divergent []).1 = Ok true /\
  exists b ob rout lout om,
    (isBehindRemote git_divergent []).2 =
      [] ++ [(branchArgs, ob); (["rev-parse"; "origin/" +:+ b], Exit 0 rout);
             (["rev-parse"; "HEAD"], Exit 0 lout);
             (["merge-base"; "--is-ancestor"; TrimSpace lout; TrimSpace rout], om)] /\
    TrimSpace rout <> TrimSpace lout /\ succeeded om = true.
Proof.
  assert (E : isBehindRemote git_divergent [] = (Ok true, (isBehindRemote git_divergent []).2))
    by (vm_compute; reflexivity).
  split; [rewrite E; reflexivity|].
  exact (isBehindRemote_true _ _ _ E).
Defined.
